(** * r2-pages: the file browser component [FileList.tsx]

    A shallow embedding of the logic of [src/components/FileList.tsx]:
    the grouping of flat object keys into one level of folders and files,
    the breadcrumb derivation, the byte-size formatting, the file icon, the
    table rows, the click handlers and the state transition of the initial
    fetch.  [formatDate] is left out: its result is decided by the locale
    data of the host.

    JavaScript strings are sequences of code units.  The string operations
    of the grouper and of the breadcrumbs ([startsWith], [slice], [split],
    [join], [length], concatenation) only compare units for equality, so
    strings are modelled as [string], a sequence of characters.  Only
    [toLowerCase], which the file icon uses, looks at the value of a unit;
    there the characters are the code units below 256. *)

From Stdlib Require Import ZArith Ascii DecimalString.
From stdpp Require Import base gmap strings list.

Local Open Scope string_scope.
Local Open Scope list_scope.
Local Open Scope stdpp_scope.

(** ** The string methods the component calls *)

Module JsString.

(** [s.startsWith(p)] *)
Fixpoint startsWith (s p : string) {struct p} : bool :=
  match p with
  | EmptyString => true
  | String c p' =>
      match s with
      | EmptyString => false
      | String d s' => if Ascii.eqb d c then startsWith s' p' else false
      end
  end.

(** [s.slice(n)] for [0 <= n]: the units from index [n] on, the empty
    string when [n] is past the end. *)
Fixpoint slice (s : string) (n : nat) {struct n} : string :=
  match n with
  | O => s
  | S n' =>
      match s with
      | EmptyString => EmptyString
      | String _ s' => slice s' n'
      end
  end.

(** [s.split(sep)] for a separator of one unit.  The result is never the
    empty array: [split sep ""] is [[""]]. *)
Fixpoint split (sep : ascii) (s : string) : list string :=
  match s with
  | EmptyString => [EmptyString]
  | String c s' =>
      if Ascii.eqb c sep then EmptyString :: split sep s'
      else
        match split sep s' with
        | [] => [String c EmptyString]
        | seg :: segs => String c seg :: segs
        end
  end.

(** [a.join(sep)] *)
Fixpoint join (sep : string) (a : list string) : string :=
  match a with
  | [] => EmptyString
  | [x] => x
  | x :: xs => x +:+ sep +:+ join sep xs
  end.

(** [Boolean(s)], also the truth value [!s] negates: only the empty
    string is falsy. *)
Definition truthy (s : string) : bool :=
  match s with
  | EmptyString => false
  | String _ _ => true
  end.

End JsString.

Import JsString.

(** ** Data model *)

(** [type FileItem] (lines 3-7).  [Size] is the integer byte count of the
    record. *)
Record FileItem := mkFileItem {
  Key : string;
  Size : Z;
  LastModified : string;
}.

(** The [type] field of a display item: ["folder" | "file"]. *)
Inductive EntryType := folder | file.

(** The element type of [displayItems] (lines 58-63); [item] is the
    optional backing record. *)
Record DisplayItem := mkDisplayItem {
  type : EntryType;
  name : string;
  fullPath : string;
  item : option FileItem;
}.

Global Instance EntryType_eq_dec : EqDecision EntryType.
Proof. solve_decision. Defined.
Global Instance FileItem_eq_dec : EqDecision FileItem.
Proof. solve_decision. Defined.
Global Instance DisplayItem_eq_dec : EqDecision DisplayItem.
Proof. solve_decision. Defined.

(** ** The hierarchy grouper (lines 57-87) *)

(** Line 57: [files.filter((file) => file.Key.startsWith(currentPath))]. *)
Definition filtered (files : list FileItem) (currentPath : string)
  : list FileItem :=
  List.filter (fun f => startsWith (Key f) currentPath) files.

(** The two mutable locals of the loop: the set [seen] and the array
    [displayItems]. *)
Record LoopState := mkLoopState {
  seen : gset string;
  displayItems : list DisplayItem;
}.

(** Both are created empty before the loop (lines 58-65). *)
Definition initState : LoopState :=
  {| seen := ∅; displayItems := [] |}.

(** The item pushed for a record whose remainder splits into
    [nextSegment :: remaining] (lines 73-86). *)
Definition entryOf (currentPath : string) (f : FileItem)
    (nextSegment : string) (remaining : list string) : DisplayItem :=
  if (0 <? length remaining)%nat then
    {| type := folder; name := nextSegment;
       fullPath := currentPath +:+ nextSegment +:+ "/"; item := None |}
  else
    {| type := file; name := nextSegment;
       fullPath := Key f; item := Some f |}.

(** One iteration of the [for] loop (lines 68-86).  The destructuring of an
    empty array would bind [nextSegment] to [undefined], which is falsy. *)
Definition loopBody (currentPath : string) (st : LoopState) (f : FileItem)
  : LoopState :=
  let rest := slice (Key f) (String.length currentPath) in
  match split "/" rest with
  | [] => st
  | nextSegment :: remaining =>
      if negb (truthy nextSegment) || bool_decide (nextSegment ∈ seen st)
      then st
      else
        {| seen := {[nextSegment]} ∪ seen st;
           displayItems :=
             displayItems st ++ [entryOf currentPath f nextSegment remaining] |}
  end.

(** The whole loop over [filtered], from the fresh locals. *)
Definition runLoop (currentPath : string) (fs : list FileItem)
    (st : LoopState) : LoopState :=
  fold_left (loopBody currentPath) fs st.

(** The value of [displayItems] after the loop, as one render computes it
    from the state variables [files] and [currentPath]. *)
Definition grouper (files : list FileItem) (currentPath : string)
  : list DisplayItem :=
  displayItems (runLoop currentPath (filtered files currentPath) initState).

(** The loop as a step relation on configurations: the records still to
    visit and the two locals.  One constructor per path through the body:
    the two [continue] cases of line 70, the folder branch and the file
    branch. *)
Definition Config : Type := list FileItem * LoopState.

Inductive LoopStep (currentPath : string) : Config -> Config -> Prop :=
  | step_falsy f fs st nextSegment remaining :
      split "/" (slice (Key f) (String.length currentPath))
        = nextSegment :: remaining ->
      truthy nextSegment = false ->
      LoopStep currentPath (f :: fs, st) (fs, st)
  | step_seen f fs st nextSegment remaining :
      split "/" (slice (Key f) (String.length currentPath))
        = nextSegment :: remaining ->
      truthy nextSegment = true ->
      nextSegment ∈ seen st ->
      LoopStep currentPath (f :: fs, st) (fs, st)
  | step_folder f fs st nextSegment remaining :
      split "/" (slice (Key f) (String.length currentPath))
        = nextSegment :: remaining ->
      truthy nextSegment = true ->
      nextSegment ∉ seen st ->
      (length remaining > 0)%nat ->
      LoopStep currentPath (f :: fs, st)
        (fs, {| seen := {[nextSegment]} ∪ seen st;
                displayItems := displayItems st ++
                  [ {| type := folder; name := nextSegment;
                       fullPath := currentPath +:+ nextSegment +:+ "/";
                       item := None |} ] |})
  | step_file f fs st nextSegment remaining :
      split "/" (slice (Key f) (String.length currentPath))
        = nextSegment :: remaining ->
      truthy nextSegment = true ->
      nextSegment ∉ seen st ->
      ~ (length remaining > 0)%nat ->
      LoopStep currentPath (f :: fs, st)
        (fs, {| seen := {[nextSegment]} ∪ seen st;
                displayItems := displayItems st ++
                  [ {| type := file; name := nextSegment;
                       fullPath := Key f; item := Some f |} ] |}).

(** A complete run of one invocation: from the filtered records and fresh
    locals to a configuration with no record left; [out] is the array the
    render then maps over. *)
Definition GrouperRun (files : list FileItem) (currentPath : string)
    (out : list DisplayItem) : Prop :=
  exists st, rtc (LoopStep currentPath)
               (filtered files currentPath, initState) ([], st)
             /\ out = displayItems st.

(** What one record alone contributes at [currentPath]: the filter of line
    57 followed by lines 68-70 and the push, with nothing seen yet. *)
Definition yields (currentPath : string) (f : FileItem) : option DisplayItem :=
  if startsWith (Key f) currentPath then
    match split "/" (slice (Key f) (String.length currentPath)) with
    | [] => None
    | nextSegment :: remaining =>
        if truthy nextSegment
        then Some (entryOf currentPath f nextSegment remaining)
        else None
    end
  else None.

(** ** Breadcrumbs (lines 56 and 115-128) *)

(** Line 56. *)
Definition pathSegments (currentPath : string) : list string :=
  if truthy currentPath
  then List.filter truthy (split "/" currentPath)
  else [].

(** Line 116: [pathSegments.slice(0, idx + 1).join("/") + "/"]. *)
Definition pathUpTo (segs : list string) (idx : nat) : string :=
  join "/" (take (idx + 1) segs) +:+ "/".

(** The [map] of lines 115-128: the label shown for each segment and the
    path its click navigates to. *)
Definition breadcrumbSegments (currentPath : string) : list (string * string) :=
  imap (fun idx seg => (seg, pathUpTo (pathSegments currentPath) idx))
       (pathSegments currentPath).

(** The running prefixes of a list of segments, as the specification words
    them: each prefix extends the previous one by the next segment and a
    slash. *)
Fixpoint runningPrefixes (acc : string) (segs : list string) : list string :=
  match segs with
  | [] => []
  | seg :: segs' =>
      let acc' := acc +:+ seg +:+ "/" in
      acc' :: runningPrefixes acc' segs'
  end.

(** ** Byte-size formatting (lines 9-13) *)

(** [`${n}`] for an integer [n]. *)
Definition numberToString (n : Z) : string :=
  NilZero.string_of_int (Z.to_int n).

(** The integer [n] for which [n / 10] is closest to [num / den], the
    larger one on a tie, for [0 < den]. *)
Definition roundTenths (num den : Z) : Z :=
  ((2 * 10 * num + den) / (2 * den))%Z.

(** [(num / den).toFixed(1)] for [0 <= num] and [0 < den]: the digits of
    that integer with the last one after the point. *)
Definition toFixed1 (num den : Z) : string :=
  let n := roundTenths num den in
  numberToString (n / 10) +:+ "." +:+ numberToString (n mod 10).

(** [formatSize] on an integer byte count.  For [0 <= bytes < 2^53] the
    quotients [bytes / 1024] and [bytes / 1024 / 1024] are divisions of an
    exactly represented integer by a power of two, so they are exact and
    [toFixed] rounds the exact rational. *)
Definition formatSize (bytes : Z) : string :=
  if (bytes <? 1024)%Z then numberToString bytes +:+ " B"
  else if (bytes <? 1024 * 1024)%Z then toFixed1 bytes 1024 +:+ " KB"
  else toFixed1 bytes (1024 * 1024) +:+ " MB".

(** ** The component state and the initial fetch (lines 37-54, 89-91) *)

(** The three [useState] cells. *)
Record ViewState := mkViewState {
  files : list FileItem;
  loading : bool;
  currentPath : string;
}.

(** Lines 37-39: the initial values. *)
Definition initialView : ViewState :=
  {| files := []; loading := true; currentPath := "" |}.

(** What the component does to the outside: a request, or a line on the
    error console. *)
Inductive Effect :=
  | FetchCall (url : string)
  | ConsoleError (message : string) (err : string).

(** The state the effect of lines 42-54 runs in: the cells and the trace of
    effects so far, oldest first. *)
Record World := mkWorld {
  view : ViewState;
  trace : list Effect;
}.

(** A settled promise. *)
Inductive Promise (A : Type) :=
  | Fulfilled (value : A)
  | Rejected (err : string).
Arguments Fulfilled {A} value.
Arguments Rejected {A} err.

(** [p.then(f)] for a handler that returns a promise: a rejection passes
    through. *)
Definition andThen {A B} (p : Promise A) (f : A -> Promise B) : Promise B :=
  match p with
  | Fulfilled a => f a
  | Rejected err => Rejected err
  end.

(** A response; [json] is what [res.json()] settles to: the parsed array, or
    a rejection when the body is not JSON. *)
Record Response := mkResponse {
  json : Promise (list FileItem);
}.

(** State-changing statements of the handlers, and their sequencing. *)
Definition Action : Type := World -> World.

Definition seqAction (a b : Action) : Action := fun w => b (a w).
Notation "a >>> b" := (seqAction a b) (at level 60, right associativity).

Definition setFiles (data : list FileItem) : Action := fun w =>
  {| view := {| files := data; loading := loading (view w);
                currentPath := currentPath (view w) |};
     trace := trace w |}.

Definition setLoading (b : bool) : Action := fun w =>
  {| view := {| files := files (view w); loading := b;
                currentPath := currentPath (view w) |};
     trace := trace w |}.

Definition setCurrentPath (p : string) : Action := fun w =>
  {| view := {| files := files (view w); loading := loading (view w);
                currentPath := p |};
     trace := trace w |}.

Definition emit (e : Effect) : Action := fun w =>
  {| view := view w; trace := trace w ++ [e] |}.

(** Lines 44-53 once the request has settled to [outcome]: the two [then]
    handlers and the [catch] handler. *)
Definition settle (outcome : Promise Response) : Action :=
  match andThen outcome json with
  | Fulfilled data => setFiles data >>> setLoading false
  | Rejected err =>
      emit (ConsoleError "Failed to fetch files:" err) >>> setLoading false
  end.

(** The effect of lines 42-54.  Its dependency array is empty, so it runs
    once, after the first render: one request to [url], then the handlers
    on its outcome. *)
Definition mountEffect (url : string) (outcome : Promise Response) : Action :=
  emit (FetchCall url) >>> settle outcome.

(** What a render returns (lines 89-191): the loading paragraph, or the
    breadcrumb with the table rows. *)
Inductive Rendered :=
  | LoadingParagraph
  | Listing (crumbs : list (string * string)) (rows : list DisplayItem).

Definition render (v : ViewState) : Rendered :=
  if loading v then LoadingParagraph
  else Listing (breadcrumbSegments (currentPath v))
               (grouper (files v) (currentPath v)).

(** ** Predicates on keys used in statements *)

(** The key contains two consecutive slashes. *)
Fixpoint doubleSlash (s : string) : bool :=
  match s with
  | EmptyString => false
  | String c s' =>
      match s' with
      | String d _ => (Ascii.eqb c "/" && Ascii.eqb d "/") || doubleSlash s'
      | EmptyString => false
      end
  end.

(** The key ends with a slash. *)
Fixpoint trailingSlash (s : string) : bool :=
  match s with
  | EmptyString => false
  | String c s' =>
      match s' with
      | EmptyString => Ascii.eqb c "/"
      | String _ _ => trailingSlash s'
      end
  end.

(** The filter of line 57 and the loop body fused into one pass over
    [files]: a record that yields nothing, or a name already seen, leaves
    the locals alone. *)
Definition visit (currentPath : string) (st : LoopState) (f : FileItem)
  : LoopState :=
  match yields currentPath f with
  | None => st
  | Some e =>
      if bool_decide (name e ∈ seen st) then st
      else {| seen := {[name e]} ∪ seen st;
              displayItems := displayItems st ++ [e] |}
  end.

(** The invariant of the loop: the displayed names are pairwise distinct
    and [seen] holds exactly the displayed names. *)
Definition loopInv (st : LoopState) : Prop :=
  NoDup (name <$> displayItems st) /\
  forall n, n ∈ seen st <-> n ∈ (name <$> displayItems st).

(** ** The file icon (lines 22-34) *)

(** [toLowerCase] on one code unit below 256: the capital letters of ASCII
    and of Latin-1 (U+00C0 to U+00DE without the multiplication sign
    U+00D7) move up by 32, every other unit stays. *)
Definition lowerUnit (c : ascii) : ascii :=
  let n := N_of_ascii c in
  if ((65 <=? n) && (n <=? 90))%N
     || ((192 <=? n) && (n <=? 222) && negb (n =? 215))%N
  then ascii_of_N (n + 32)
  else c.

(** [s.toLowerCase()] for a string of code units below 256, which is what
    [string] holds. *)
Fixpoint toLowerCase (s : string) : string :=
  match s with
  | EmptyString => EmptyString
  | String c s' => String (lowerUnit c) (toLowerCase s')
  end.

(** [a.includes(x)] on an array of strings. *)
Definition includes (a : list string) (x : string) : bool :=
  bool_decide (x ∈ a).

(** Line 23: [fileName.split(".").pop()?.toLowerCase() || ""].  [pop] gives
    the last element, [undefined] on an empty array; a falsy result is
    replaced by the empty string. *)
Definition extensionOf (fileName : string) : string :=
  match last (split "." fileName) with
  | Some e => if truthy (toLowerCase e) then toLowerCase e else ""
  | None => ""
  end.

(** Lines 24-33, on the extension. *)
Definition iconOfExtension (ext : string) : string :=
  if includes ["jpg"; "jpeg"; "png"; "gif"; "bmp"; "webp"] ext
  then "fal fa-file-image text-pink-500"
  else if includes ["pdf"] ext then "fal fa-file-pdf text-red-600"
  else if includes ["doc"; "docx"] ext then "fal fa-file-word text-blue-600"
  else if includes ["xls"; "xlsx"] ext
  then "fal fa-file-excel text-green-600"
  else if includes ["ppt"; "pptx"] ext
  then "fal fa-file-powerpoint text-orange-500"
  else if includes ["zip"; "rar"; "7z"; "tar"; "gz"] ext
  then "fal fa-file-archive text-yellow-600"
  else if includes ["mp4"; "mkv"; "webm"] ext
  then "fal fa-file-video text-purple-600"
  else if includes ["mp3"; "wav"; "ogg"] ext
  then "fal fa-file-audio text-indigo-500"
  else if includes ["txt"; "md"; "json"; "xml"; "csv"] ext
  then "fal fa-file-alt text-gray-500"
  else "fal fa-file text-gray-400".

Definition getFileIcon (fileName : string) : string :=
  iconOfExtension (extensionOf fileName).

(** ** The table rows (lines 140-180) *)

(** What a row shows, the date cell apart. *)
Record Row := mkRow {
  rowKey : string;
  iconClass : string;
  label : string;
  link : option string;
  sizeText : string;
}.

(** One row of the [map] of line 140.  For a file the cells read
    [entry.item!.Size]: the [!] is erased at compile time, so an item with
    no backing record makes the render throw, which is [None] here. *)
Definition renderRow (cdnUrl : string) (entry : DisplayItem) : option Row :=
  match type entry with
  | folder =>
      Some {| rowKey := fullPath entry;
              iconClass := "fal fa-folder text-yellow-500";
              label := name entry;
              link := None;
              sizeText := "--" |}
  | file =>
      match item entry with
      | Some it =>
          Some {| rowKey := fullPath entry;
                  iconClass := getFileIcon (name entry);
                  label := name entry;
                  link := Some (cdnUrl +:+ "/" +:+ fullPath entry);
                  sizeText := formatSize (Size it) |}
      | None => None
      end
  end.

(** The table body: every row, or the throw of the first row that fails. *)
Definition renderRows (cdnUrl : string) (entries : list DisplayItem)
  : option (list Row) :=
  mapM (renderRow cdnUrl) entries.

(** ** Navigation (lines 110, 122, 144-148) *)

(** The clicks the rendered listing reacts to: the home label, the
    breadcrumb at an index, the table row at an index. *)
Inductive Click :=
  | ClickHome
  | ClickCrumb (idx : nat)
  | ClickRow (idx : nat).

(** The [onClick] handlers.  The loading paragraph has none, and there is
    no element to click at an index past the rendered ones.  A row of a
    file changes nothing (line 147). *)
Definition handleClick (c : Click) : Action := fun w =>
  match render (view w) with
  | LoadingParagraph => w
  | Listing crumbs rows =>
      match c with
      | ClickHome => setCurrentPath "" w
      | ClickCrumb idx =>
          match crumbs !! idx with
          | Some (_, upTo) => setCurrentPath upTo w
          | None => w
          end
      | ClickRow idx =>
          match rows !! idx with
          | Some entry =>
              match type entry with
              | folder => setCurrentPath (fullPath entry) w
              | file => w
              end
          | None => w
          end
      end
  end.

(** A session: the mount effect settled with [outcome], then the clicks in
    order. *)
Definition session (url : string) (outcome : Promise Response)
    (clicks : list Click) : World :=
  fold_left (fun w c => handleClick c w) clicks
    (mountEffect url outcome {| view := initialView; trace := [] |}).

(** ** Notions used in statements and proofs *)

(** No unit of the string is the separator. *)
Fixpoint sepFree (sep : ascii) (s : string) : bool :=
  match s with
  | EmptyString => true
  | String c s' => negb (Ascii.eqb c sep) && sepFree sep s'
  end.

(** A path segment as navigation builds them: not empty, no slash. *)
Definition goodSegment (s : string) : Prop :=
  truthy s = true /\ sepFree "/" s = true.

(** The path made of the given segments, each followed by a slash. *)
Definition dirOf (segs : list string) : string :=
  match segs with
  | [] => ""
  | _ :: _ => join "/" segs +:+ "/"
  end.

(** A path that is made of its own segments: empty, or non-empty
    slash-free segments each followed by a slash. *)
Definition canonicalPath (p : string) : Prop :=
  dirOf (pathSegments p) = p.

(** What a session keeps: no effect after the mount, the fetched records,
    no loading paragraph, a canonical current path that is empty or a
    prefix of a key. *)
Definition sessionInv (w0 w : World) : Prop :=
  trace w = trace w0 /\
  files (view w) = files (view w0) /\
  loading (view w) = false /\
  canonicalPath (currentPath (view w)) /\
  (currentPath (view w) = "" \/
   exists f, f ∈ files (view w) /\
             startsWith (Key f) (currentPath (view w)) = true).

(** The items the pass of [visit] over [fs] pushes when the names in [S]
    have been seen already. *)
Fixpoint pushed (currentPath : string) (fs : list FileItem)
    (S : gset string) : list DisplayItem :=
  match fs with
  | [] => []
  | f :: fs' =>
      match yields currentPath f with
      | Some e =>
          if bool_decide (name e ∈ S) then pushed currentPath fs' S
          else e :: pushed currentPath fs' ({[name e]} ∪ S)
      | None => pushed currentPath fs' S
      end
  end.

(** ** Sample data: the records of the specification's scenarios *)

Definition sampleRecords : list FileItem :=
  [ {| Key := "a/b.txt"; Size := 512; LastModified := "2024-05-01T08:00:00Z" |};
    {| Key := "a/c.txt"; Size := 2048; LastModified := "2024-05-02T09:30:00Z" |};
    {| Key := "d.txt"; Size := 5242880;
       LastModified := "2024-05-03T10:45:00Z" |} ].

Definition sampleFolder : DisplayItem :=
  {| type := folder; name := "a"; fullPath := "a/"; item := None |}.

Definition sampleFile : DisplayItem :=
  {| type := file; name := "d.txt"; fullPath := "d.txt";
     item := Some {| Key := "d.txt"; Size := 5242880;
                     LastModified := "2024-05-03T10:45:00Z" |} |}.

(** A response whose body is not JSON. *)
Definition sampleBadResponse : Promise Response :=
  Fulfilled {| json := Rejected "SyntaxError: Unexpected token <" |}.

(** Records two folders deep. *)
Definition sampleDeepRecords : list FileItem :=
  [ {| Key := "docs/2024/report.pdf"; Size := 1048575;
       LastModified := "2024-06-01T12:00:00Z" |};
    {| Key := "docs/readme.md"; Size := 100;
       LastModified := "2024-06-02T12:00:00Z" |} ].

(** Two records yielding the same name at the root: a file [a], then a
    file inside a folder [a]. *)
Definition sampleClash : list FileItem :=
  [ {| Key := "a"; Size := 7; LastModified := "2024-07-01T00:00:00Z" |};
    {| Key := "a/b.txt"; Size := 9;
       LastModified := "2024-07-02T00:00:00Z" |} ].

Definition sampleClashFile : DisplayItem :=
  {| type := file; name := "a"; fullPath := "a";
     item := Some {| Key := "a"; Size := 7;
                     LastModified := "2024-07-01T00:00:00Z" |} |}.

(** A response with the sample records as its body. *)
Definition sampleGoodResponse : Promise Response :=
  Fulfilled {| json := Fulfilled sampleRecords |}.

(** Settle a decidable proposition by evaluating its decision procedure. *)
Ltac decide_by_evaluation :=
  apply (bool_decide_unpack _); vm_compute; exact I.

(** * Properties *)

(** ** Strings *)

Section StringFacts.

Implicit Types (s p r : string) (c sep : ascii).

Lemma append_cons c s r : String c s +:+ r = String c (s +:+ r).
Proof. reflexivity. Qed.

Lemma append_assoc s p r : (s +:+ p) +:+ r = s +:+ (p +:+ r).
Proof.
  induction s as [|c s IH]; [reflexivity|].
  by rewrite !append_cons, IH.
Qed.

Lemma startsWith_app p r : startsWith (p +:+ r) p = true.
Proof.
  induction p as [|c p IH]; [reflexivity|].
  rewrite append_cons. simpl. by rewrite Ascii.eqb_refl.
Qed.

Lemma startsWith_slice s p :
  startsWith s p = true -> s = p +:+ slice s (String.length p).
Proof.
  revert s. induction p as [|c p IH]; intros s H; [reflexivity|].
  destruct s as [|d s]; [done|]. simpl in H.
  destruct (Ascii.eqb d c) eqn:E; [|done].
  apply Ascii.eqb_eq in E as ->.
  rewrite append_cons. simpl. f_equal. by apply IH.
Qed.

Lemma slice_app p r : slice (p +:+ r) (String.length p) = r.
Proof. induction p as [|c p IH]; [reflexivity|]. by rewrite append_cons. Qed.

Lemma split_not_nil sep s : split sep s <> [].
Proof.
  destruct s as [|c s]; [done|]. simpl.
  destruct (Ascii.eqb c sep); [done|]. by destruct (split sep s).
Qed.

(** A split with a second element: the string is the first segment, the
    separator, and a rest that splits into the remaining elements. *)
Lemma split_second sep s seg r1 rs :
  split sep s = seg :: r1 :: rs ->
  exists more, s = seg +:+ String sep more /\ split sep more = r1 :: rs.
Proof.
  revert seg. induction s as [|c s IH]; intros seg H; [done|].
  simpl in H. destruct (Ascii.eqb c sep) eqn:E.
  - apply Ascii.eqb_eq in E as ->. injection H as <- H. by exists s.
  - destruct (split sep s) as [|seg' segs] eqn:Hs; [done|].
    injection H as <- ->.
    destruct (IH seg' eq_refl) as (more & -> & Hm).
    exists more. by rewrite append_cons.
Qed.

(** A split whose first element is empty: the string is empty or starts
    with the separator. *)
Lemma split_head_falsy sep s seg rs :
  split sep s = seg :: rs -> truthy seg = false ->
  s = "" \/ exists s', s = String sep s'.
Proof.
  destruct s as [|c s]; [by left|]. simpl. intros H Hseg. right.
  destruct (Ascii.eqb c sep) eqn:E.
  - apply Ascii.eqb_eq in E as ->. by exists s.
  - destruct (split sep s); simplify_eq; done.
Qed.

Lemma doubleSlash_app s r :
  doubleSlash (s +:+ String "/" (String "/" r)) = true.
Proof.
  induction s as [|c s IH]; [reflexivity|].
  rewrite append_cons.
  change (doubleSlash (String c ?t)) with
    (match t with
     | String d _ => (Ascii.eqb c "/" && Ascii.eqb d "/") || doubleSlash t
     | EmptyString => false
     end).
  destruct (s +:+ String "/" (String "/" r)) eqn:E.
  - by destruct s.
  - rewrite IH. by rewrite orb_true_r.
Qed.

Lemma trailingSlash_app s : trailingSlash (s +:+ "/") = true.
Proof.
  induction s as [|c s IH]; [reflexivity|].
  rewrite append_cons.
  change (trailingSlash (String c ?t)) with
    (match t with
     | EmptyString => Ascii.eqb c "/"
     | String _ _ => trailingSlash t
     end).
  destruct (s +:+ "/") eqn:E; [by destruct s|done].
Qed.

End StringFacts.

(** ** The loop *)

Section Loop.

Variable currentPath : string.

Lemma name_entryOf f seg remaining :
  name (entryOf currentPath f seg remaining) = seg.
Proof. unfold entryOf. by destruct (0 <? length remaining)%nat. Qed.

(** On a record that passed the filter the loop body is [visit]. *)
Lemma loopBody_visit st f :
  startsWith (Key f) currentPath = true ->
  loopBody currentPath st f = visit currentPath st f.
Proof.
  intros Hp. unfold loopBody, visit, yields. rewrite Hp.
  destruct (split "/" _) as [|seg remaining]; [done|].
  destruct (truthy seg); simpl; [|done].
  by rewrite name_entryOf.
Qed.

Lemma visit_filtered_out st f :
  startsWith (Key f) currentPath = false -> visit currentPath st f = st.
Proof. intros Hp. unfold visit, yields. by rewrite Hp. Qed.

(** The filter followed by the loop is one pass of [visit]. *)
Lemma runLoop_filtered fs st :
  runLoop currentPath (filtered fs currentPath) st
  = fold_left (visit currentPath) fs st.
Proof.
  revert st. induction fs as [|f fs IH]; intros st; [done|].
  unfold filtered, runLoop in *. simpl.
  destruct (startsWith (Key f) currentPath) eqn:Hp; simpl.
  - by rewrite IH, loopBody_visit.
  - by rewrite IH, visit_filtered_out.
Qed.

Lemma grouper_fold fs :
  grouper fs currentPath
  = displayItems (fold_left (visit currentPath) fs initState).
Proof. unfold grouper. by rewrite runLoop_filtered. Qed.

(** The three ways a visit can go. *)
Lemma visit_cases st f :
  (yields currentPath f = None /\ visit currentPath st f = st)
  \/ (exists e, yields currentPath f = Some e /\ name e ∈ seen st
                /\ visit currentPath st f = st)
  \/ (exists e, yields currentPath f = Some e /\ (name e ∉ seen st)
                /\ visit currentPath st f
                   = {| seen := {[name e]} ∪ seen st;
                        displayItems := displayItems st ++ [e] |}).
Proof.
  unfold visit. destruct (yields currentPath f) as [e|]; [|by left].
  right. case_bool_decide; [left|right]; by exists e.
Qed.

(** Membership in the final array: an item was there before the pass, or
    it is what the first record yielding its name yields, that name not
    having been seen before the pass. *)
Lemma fold_visit_elem fs : forall st e,
  e ∈ displayItems (fold_left (visit currentPath) fs st) <->
  e ∈ displayItems st \/
  exists i f, fs !! i = Some f /\ yields currentPath f = Some e /\
    (name e ∉ seen st) /\
    forall j f' e', (j < i)%nat -> fs !! j = Some f' ->
      yields currentPath f' = Some e' -> name e' <> name e.
Proof.
  induction fs as [|f fs IH]; intros st e; simpl.
  { split; [by left|]. intros [?|(i & f & Hi & _)]; [done|].
    by rewrite lookup_nil in Hi. }
  rewrite IH.
  destruct (visit_cases st f)
    as [[Hy ->]|[(e0 & Hy & Hin & ->)|(e0 & Hy & Hnin & ->)]]; simpl.
  - split; (intros [?|(i & g & Hi & Hg & Hs & Hfirst)]; [by left|right]).
    + exists (S i), g. repeat split; [done..|].
      intros [|j] f' e' Hj Hf' He'; simplify_eq/=.
      eapply Hfirst; [|done..]. lia.
    + destruct i as [|i]; simplify_eq/=.
      exists i, g. repeat split; [done..|].
      intros j f' e' Hj Hf' He'. apply (Hfirst (S j) f' e'); [lia|done..].
  - split; (intros [?|(i & g & Hi & Hg & Hs & Hfirst)]; [by left|right]).
    + exists (S i), g. repeat split; [done..|].
      intros [|j] f' e' Hj Hf' He'; simplify_eq/=.
      * intros Heq. by rewrite Heq in Hin.
      * eapply Hfirst; [|done..]. lia.
    + destruct i as [|i]; simplify_eq/=; [done|].
      exists i, g. repeat split; [done..|].
      intros j f' e' Hj Hf' He'. apply (Hfirst (S j) f' e'); [lia|done..].
  - rewrite elem_of_app, list_elem_of_singleton. split.
    + intros [[?| ->]|(i & g & Hi & Hg & Hs & Hfirst)].
      * by left.
      * right. exists 0%nat, f. repeat split; [done..|]. intros; lia.
      * right. exists (S i), g. repeat split; [done| done | |].
        -- intros Hin. apply Hs, elem_of_union. by right.
        -- intros [|j] f' e' Hj Hf' He'; simplify_eq/=.
           ++ intros Heq. apply Hs, elem_of_union. left.
              by apply elem_of_singleton.
           ++ eapply Hfirst; [|done..]. lia.
    + intros [?|(i & g & Hi & Hg & Hs & Hfirst)]; [by left; left|].
      destruct i as [|i]; simplify_eq/=; [by left; right|].
      right. exists i, g. repeat split; [done..| |].
      * assert (name e0 <> name e) as Hne
          by (apply (Hfirst 0%nat f e0); [lia|done..]).
        rewrite elem_of_union, elem_of_singleton.
        intros [Heq|Hin]; [congruence|done].
      * intros j f' e' Hj Hf' He'. apply (Hfirst (S j) f' e'); [lia|done..].
Qed.

Lemma loopInv_init : loopInv initState.
Proof.
  split; simpl; [constructor|].
  intros n. rewrite elem_of_nil. set_solver.
Qed.

Lemma loopInv_visit st f : loopInv st -> loopInv (visit currentPath st f).
Proof.
  intros [Hnd Hseen].
  destruct (visit_cases st f)
    as [[_ ->]|[(e0 & _ & _ & ->)|(e0 & _ & Hnin & ->)]]; [done..|].
  split; simpl.
  - rewrite fmap_app. simpl. apply NoDup_app. split; [done|]. split.
    + intros n Hn. rewrite list_elem_of_singleton. intros ->.
      apply Hnin. by apply Hseen.
    + apply NoDup_singleton.
  - intros n. rewrite fmap_app, elem_of_app, elem_of_union, Hseen.
    simpl. rewrite list_elem_of_singleton, elem_of_singleton. tauto.
Qed.

Lemma loopInv_fold fs : forall st,
  loopInv st -> loopInv (fold_left (visit currentPath) fs st).
Proof.
  induction fs as [|f fs IH]; intros st Hst; [done|].
  simpl. by apply IH, loopInv_visit.
Qed.

(** [seen] only grows. *)
Lemma seen_fold_mono fs : forall st n,
  n ∈ seen st -> n ∈ seen (fold_left (visit currentPath) fs st).
Proof.
  induction fs as [|f fs IH]; intros st n Hn; [done|].
  simpl. apply IH.
  destruct (visit_cases st f)
    as [[_ ->]|[(e0 & _ & _ & ->)|(e0 & _ & _ & ->)]]; [done..|].
  set_solver.
Qed.

(** The name a visited record yields is in [seen] after the pass. *)
Lemma seen_fold_yields fs : forall st f e,
  f ∈ fs -> yields currentPath f = Some e ->
  name e ∈ seen (fold_left (visit currentPath) fs st).
Proof.
  induction fs as [|g fs IH]; intros st f e Hf Hy.
  { by apply elem_of_nil in Hf. }
  apply elem_of_cons in Hf as [->|Hf]; simpl; [|by eapply IH].
  apply seen_fold_mono.
  destruct (visit_cases st g)
    as [[Hn _]|[(e0 & Hy0 & Hin & ->)|(e0 & Hy0 & _ & ->)]];
    simplify_eq; [done|set_solver].
Qed.

(** A single record: the grouper returns what the record yields. *)
Lemma grouper_single f :
  grouper [f] currentPath = option_list (yields currentPath f).
Proof.
  rewrite grouper_fold. simpl. unfold visit.
  destruct (yields currentPath f) as [e|]; [|done].
  simpl. case_bool_decide; [set_solver|done].
Qed.

Lemma grouper_single_yields f e :
  grouper [f] currentPath = [e] <-> yields currentPath f = Some e.
Proof.
  rewrite grouper_single.
  destruct (yields currentPath f); simpl; split; intros; by simplify_eq.
Qed.

(** The loop body pushes at most one item. *)
Lemma loopBody_length st f :
  (length (displayItems (loopBody currentPath st f))
   <= S (length (displayItems st)))%nat.
Proof.
  unfold loopBody. destruct (split "/" _) as [|seg remaining]; [lia|].
  destruct (_ || _); simpl; [lia|]. rewrite length_app. simpl. lia.
Qed.

Lemma runLoop_length fs : forall st,
  (length (displayItems (runLoop currentPath fs st))
   <= length (displayItems st) + length fs)%nat.
Proof.
  induction fs as [|f fs IH]; intros st; simpl; [lia|].
  unfold runLoop in *. simpl.
  specialize (IH (loopBody currentPath st f)).
  pose proof (loopBody_length st f). lia.
Qed.

End Loop.

(** ** What a record yields *)

Section Yields.

Variable currentPath : string.

(** The parts of a yielded item, read off lines 68-86. *)
Lemma yields_inv f e :
  yields currentPath f = Some e ->
  startsWith (Key f) currentPath = true /\
  exists nextSegment remaining,
    split "/" (slice (Key f) (String.length currentPath))
      = nextSegment :: remaining /\
    truthy nextSegment = true /\
    e = entryOf currentPath f nextSegment remaining.
Proof.
  unfold yields. intros H.
  destruct (startsWith (Key f) currentPath); [|done].
  destruct (split "/" _) as [|seg remaining] eqn:Hs; [done|].
  destruct (truthy seg) eqn:Ht; [|done].
  injection H as <-. split; [done|]. by exists seg, remaining.
Qed.

Lemma yields_startsWith f e :
  yields currentPath f = Some e ->
  startsWith (fullPath e) currentPath = true.
Proof.
  intros (Hp & seg & remaining & _ & _ & ->)%yields_inv.
  unfold entryOf. destruct (0 <? length remaining)%nat; simpl; [|done].
  apply startsWith_app.
Qed.

Lemma yields_folder f e :
  yields currentPath f = Some e -> type e = folder ->
  fullPath e = (currentPath +:+ name e) +:+ "/" /\ item e = None.
Proof.
  intros (Hp & seg & remaining & _ & _ & ->)%yields_inv.
  unfold entryOf. destruct (0 <? length remaining)%nat; simpl; [|done].
  intros _. by rewrite append_assoc.
Qed.

Lemma yields_file f e :
  yields currentPath f = Some e -> type e = file ->
  fullPath e = Key f /\ item e = Some f.
Proof.
  intros (Hp & seg & remaining & _ & _ & ->)%yields_inv.
  unfold entryOf. by destruct (0 <? length remaining)%nat.
Qed.

(** The items of one invocation: each is what the first record yielding
    its name yields. *)
Lemma grouper_elem fs e :
  e ∈ grouper fs currentPath <->
  exists i f, fs !! i = Some f /\ yields currentPath f = Some e /\
    forall j f' e', (j < i)%nat -> fs !! j = Some f' ->
      yields currentPath f' = Some e' -> name e' <> name e.
Proof.
  rewrite grouper_fold, fold_visit_elem. simpl. split.
  - intros [H|(i & f & ? & ? & _ & ?)]; [by apply elem_of_nil in H|].
    by exists i, f.
  - intros (i & f & ? & ? & ?). right. exists i, f.
    repeat split; [done..| |done]. apply not_elem_of_empty.
Qed.

Lemma grouper_names_NoDup fs : NoDup (name <$> grouper fs currentPath).
Proof.
  rewrite grouper_fold. apply loopInv_fold, loopInv_init.
Qed.

(** A name some record yields is displayed. *)
Lemma grouper_name_kept fs f e :
  f ∈ fs -> yields currentPath f = Some e ->
  name e ∈ (name <$> grouper fs currentPath).
Proof.
  intros Hf Hy. rewrite grouper_fold.
  apply (loopInv_fold currentPath fs initState (loopInv_init)).
  by eapply seen_fold_yields.
Qed.

End Yields.

(** ** The grouper *)

(** C1. Every item the grouper produces, folder or file, has a [fullPath]
    that starts with the current path. *)
Theorem grouper_fullPath_startsWith
    (files : list FileItem) (currentPath : string) (e : DisplayItem) :
  e ∈ grouper files currentPath ->
  startsWith (fullPath e) currentPath = true.
Proof.
  intros (i & f & _ & Hy & _)%grouper_elem.
  by eapply yields_startsWith.
Qed.

(** C2. When the keys of the records are pairwise distinct, the [fullPath]
    of a folder item ends with a slash, and the [fullPath] of a file item is
    the key of its backing record, which sits at the only position of the
    input whose key is that path. *)
Theorem grouper_fullPath_shape
    (files : list FileItem) (currentPath : string) (e : DisplayItem) :
  NoDup (Key <$> files) ->
  e ∈ grouper files currentPath ->
  (type e = folder -> exists s, fullPath e = s +:+ "/") /\
  (type e = file ->
   exists i r, files !! i = Some r /\ item e = Some r /\
     Key r = fullPath e /\
     forall j r', files !! j = Some r' -> Key r' = fullPath e -> j = i).
Proof.
  intros Hnd (i & f & Hi & Hy & _)%grouper_elem. split; intros Ht.
  - destruct (yields_folder _ _ _ Hy Ht) as [-> _]. by eexists.
  - destruct (yields_file _ _ _ Hy Ht) as [Hfp Hit].
    exists i, f. repeat split; [done..|].
    intros j r' Hj Hk.
    eapply (NoDup_lookup (Key <$> files)); [done| |].
    + by rewrite list_lookup_fmap, Hj.
    + rewrite list_lookup_fmap, Hi. simpl. congruence.
Qed.

(** C3. The names of the items of one invocation are pairwise distinct.
    An item is produced exactly when it is what some record yields (the
    filter of line 57, the split of lines 68-69 and the item of lines
    73-86) and no earlier record of the input yields an item of the same
    name: the item kept for a name is the one of the first record yielding
    that name.  Every name some record yields is the name of a produced
    item. *)
Theorem grouper_first_occurrence_wins
    (files : list FileItem) (currentPath : string) :
  NoDup (name <$> grouper files currentPath) /\
  (forall e, e ∈ grouper files currentPath <->
     exists i f, files !! i = Some f /\ yields currentPath f = Some e /\
       forall j f' e', (j < i)%nat -> files !! j = Some f' ->
         yields currentPath f' = Some e' -> name e' <> name e) /\
  (forall f e', f ∈ files -> yields currentPath f = Some e' ->
     exists e, e ∈ grouper files currentPath /\ name e = name e').
Proof.
  split; [apply grouper_names_NoDup|]. split.
  - intros e. apply grouper_elem.
  - intros f e' Hf Hy.
    pose proof (grouper_name_kept _ _ _ _ Hf Hy) as Hin.
    apply list_elem_of_fmap in Hin as (e & He & Hin). by exists e.
Qed.

(** C4. Scenario A: the records with keys [a/b.txt], [a/c.txt], [d.txt] at
    the root give the folder [a] and then the file [d.txt].  The order is
    that of the input: with [d.txt] first the file comes first. *)
Theorem grouper_scenarioA (s1 s2 s3 : Z) (d1 d2 d3 : string) :
  let r1 := {| Key := "a/b.txt"; Size := s1; LastModified := d1 |} in
  let r2 := {| Key := "a/c.txt"; Size := s2; LastModified := d2 |} in
  let r3 := {| Key := "d.txt"; Size := s3; LastModified := d3 |} in
  grouper [r1; r2; r3] "" =
    [ {| type := folder; name := "a"; fullPath := "a/"; item := None |};
      {| type := file; name := "d.txt"; fullPath := "d.txt";
         item := Some r3 |} ] /\
  grouper [r3; r1; r2] "" =
    [ {| type := file; name := "d.txt"; fullPath := "d.txt";
         item := Some r3 |};
      {| type := folder; name := "a"; fullPath := "a/"; item := None |} ].
Proof. split; vm_compute; reflexivity. Qed.

(** The other scenarios of the specification: inside the folder, a path
    that matches nothing, and a key equal to the current path. *)
Example grouper_scenarioB :
  name <$> grouper sampleRecords "a/" = ["b.txt"; "c.txt"] /\
  fullPath <$> grouper sampleRecords "a/" = ["a/b.txt"; "a/c.txt"] /\
  type <$> grouper sampleRecords "a/" = [file; file].
Proof. repeat split; vm_compute; reflexivity. Qed.

Example grouper_scenarioC : grouper sampleRecords "z/" = [].
Proof. vm_compute. reflexivity. Qed.

Example grouper_scenarioD (size : Z) (date : string) :
  grouper [ {| Key := "a/"; Size := size; LastModified := date |} ] "a/" = [].
Proof. vm_compute. reflexivity. Qed.

(** C9. The grouper is a total function; the loop body pushes at most one
    item for the record it visits, so there are at most as many items as
    records that pass the filter, hence at most as many as records. *)
Theorem grouper_length_le (files : list FileItem) (currentPath : string) :
  (forall st f,
     length (displayItems (loopBody currentPath st f))
     <= S (length (displayItems st)))%nat /\
  (forall f, length (grouper [f] currentPath) <= 1)%nat /\
  (length (grouper files currentPath)
   <= length (filtered files currentPath))%nat /\
  (length (filtered files currentPath) <= length files)%nat.
Proof.
  split; [apply loopBody_length|]. split; [|split].
  - intros f. rewrite grouper_single.
    destruct (yields currentPath f); simpl; lia.
  - unfold grouper.
    pose proof (runLoop_length currentPath
                  (filtered files currentPath) initState) as H.
    simpl in H. lia.
  - apply List.filter_length_le.
Qed.

(** ** Navigating into a folder *)

Lemma append_nil_r (s : string) : s +:+ "" = s.
Proof.
  induction s as [|c s IH]; [reflexivity|]. by rewrite append_cons, IH.
Qed.

(** A record that yields a folder at [currentPath] yields an item at the
    folder's path, unless its key has a double or a trailing slash. *)
Lemma yields_folder_descend (currentPath : string) (f : FileItem)
    (e : DisplayItem) :
  doubleSlash (Key f) = false -> trailingSlash (Key f) = false ->
  yields currentPath f = Some e -> type e = folder ->
  exists e', yields (fullPath e) f = Some e'.
Proof.
  intros Hds Hts Hy Ht.
  destruct (yields_inv _ _ _ Hy) as (Hp & seg & remaining & Hs & _ & He).
  assert (fullPath e = (currentPath +:+ seg) +:+ "/") as Hfp.
  { destruct (yields_folder _ _ _ Hy Ht) as [-> _].
    by rewrite He, name_entryOf. }
  destruct remaining as [|r1 rs].
  { rewrite He in Ht. by vm_compute in Ht. }
  destruct (split_second _ _ _ _ _ Hs) as (more & Hrest & Hmore).
  assert (Key f = fullPath e +:+ more) as Hkey.
  { rewrite (startsWith_slice _ _ Hp), Hrest, Hfp at 1.
    by rewrite !append_assoc. }
  assert (startsWith (Key f) (fullPath e) = true) as Hp'
    by (rewrite Hkey; apply startsWith_app).
  assert (slice (Key f) (String.length (fullPath e)) = more) as Hrest'
    by (rewrite Hkey; apply slice_app).
  unfold yields. rewrite Hp', Hrest', Hmore.
  destruct (truthy r1) eqn:Hr1; [by eexists|]. exfalso.
  destruct (split_head_falsy _ _ _ _ Hmore Hr1) as [->|[s' ->]].
  - rewrite append_nil_r, Hfp in Hkey.
    rewrite Hkey, trailingSlash_app in Hts. done.
  - rewrite Hfp, append_assoc in Hkey.
    rewrite Hkey in Hds.
    change ("/" +:+ String "/" s') with (String "/" (String "/" s')) in Hds.
    by rewrite doubleSlash_app in Hds.
Qed.

(** C10. When no key has a double slash or a trailing slash, the grouper
    invoked at the path of a folder item it produced returns at least one
    item. *)
Theorem grouper_folder_not_empty
    (files : list FileItem) (currentPath : string) (e : DisplayItem) :
  Forall (fun f => doubleSlash (Key f) = false /\
                   trailingSlash (Key f) = false) files ->
  e ∈ grouper files currentPath ->
  type e = folder ->
  grouper files (fullPath e) <> [].
Proof.
  intros Hkeys (i & f & Hi & Hy & _)%grouper_elem Ht.
  assert (f ∈ files) as Hf by (by eapply list_elem_of_lookup_2).
  destruct (proj1 (Forall_forall _ _) Hkeys f Hf) as [Hds Hts].
  destruct (yields_folder_descend _ _ _ Hds Hts Hy Ht) as [e' He'].
  pose proof (grouper_name_kept _ _ _ _ Hf He') as Hin.
  intros Hnil. rewrite Hnil in Hin. by apply elem_of_nil in Hin.
Qed.

(** ** The loop as a relation *)

Section Steps.

Variable currentPath : string.

(** The only step from a configuration with a record left is the loop
    body on that record. *)
Lemma LoopStep_loopBody c c' :
  LoopStep currentPath c c' <->
  exists f fs st, c = (f :: fs, st) /\ c' = (fs, loopBody currentPath st f).
Proof.
  split.
  - intros H. destruct H as
      [f fs st seg remaining Hs Ht
      |f fs st seg remaining Hs Ht Hin
      |f fs st seg remaining Hs Ht Hnin Hlen
      |f fs st seg remaining Hs Ht Hnin Hlen];
      exists f, fs, st; (split; [done|]); unfold loopBody;
      rewrite Hs, Ht; simpl; f_equal.
    + by rewrite bool_decide_eq_true_2.
    + rewrite bool_decide_eq_false_2 by done. unfold entryOf.
      by destruct (Nat.ltb_spec 0 (length remaining)); [|lia].
    + rewrite bool_decide_eq_false_2 by done. unfold entryOf.
      by destruct (Nat.ltb_spec 0 (length remaining)); [lia|].
  - intros (f & fs & st & -> & ->). unfold loopBody.
    destruct (split "/" _) as [|seg remaining] eqn:Hs.
    { by apply split_not_nil in Hs. }
    destruct (truthy seg) eqn:Ht; simpl; [|by eapply step_falsy].
    case_bool_decide as Hin; [by eapply step_seen|].
    unfold entryOf. destruct (Nat.ltb_spec 0 (length remaining)).
    + by eapply step_folder.
    + eapply step_file; [done..|lia].
Qed.

(** Every run of the loop to the end stops with the locals [runLoop]
    computes. *)
Lemma LoopStep_rtc_runLoop fs : forall st st',
  rtc (LoopStep currentPath) (fs, st) ([], st') ->
  st' = runLoop currentPath fs st.
Proof.
  induction fs as [|f fs IH]; intros st st' Hrun.
  - apply rtc_inv in Hrun as [Heq|(c & Hstep & _)]; [by simplify_eq|].
    apply LoopStep_loopBody in Hstep as (? & ? & ? & ? & _). done.
  - apply rtc_inv in Hrun as [Heq|(c & Hstep & Hrun)]; [done|].
    apply LoopStep_loopBody in Hstep as (? & ? & ? & ? & ->).
    simplify_eq. by apply IH.
Qed.

(** The loop runs to the end from every configuration. *)
Lemma runLoop_rtc_LoopStep fs : forall st,
  rtc (LoopStep currentPath) (fs, st) ([], runLoop currentPath fs st).
Proof.
  induction fs as [|f fs IH]; intros st; [done|].
  eapply rtc_l; [|apply IH].
  apply LoopStep_loopBody. by exists f, fs, st.
Qed.

End Steps.

(** Every invocation has a run, and its output is [grouper]. *)
Lemma GrouperRun_grouper (fs : list FileItem) (currentPath : string) :
  GrouperRun fs currentPath (grouper fs currentPath).
Proof.
  eexists. split; [apply runLoop_rtc_LoopStep|done].
Qed.

(** C8. Two invocations of the grouper on the same records and the same
    current path end with the same ordered array. *)
Theorem grouper_deterministic
    (fs : list FileItem) (currentPath : string)
    (out1 out2 : list DisplayItem) :
  GrouperRun fs currentPath out1 ->
  GrouperRun fs currentPath out2 ->
  out1 = out2.
Proof.
  intros (st1 & Hrun1 & ->) (st2 & Hrun2 & ->).
  apply LoopStep_rtc_runLoop in Hrun1, Hrun2. congruence.
Qed.

(** ** Breadcrumbs *)

Lemma pathSegments_filter (p : string) :
  pathSegments p = List.filter truthy (split "/" p).
Proof. unfold pathSegments. by destruct p. Qed.

(** The running prefix at index [i] is the accumulator followed by the
    first [i + 1] segments joined, and a slash. *)
Lemma runningPrefixes_lookup (segs : list string) : forall acc i,
  runningPrefixes acc segs !! i =
  (fun _ => acc +:+ join "/" (take (S i) segs) +:+ "/") <$> segs !! i.
Proof.
  induction segs as [|seg segs IH]; intros acc i; [done|].
  destruct i as [|i]; simpl runningPrefixes.
  - simpl. by destruct segs.
  - rewrite !lookup_cons. rewrite IH.
    destruct (segs !! i) as [x|] eqn:Hi; [|done]. simpl. f_equal.
    destruct segs as [|y segs]; [done|].
    change (take (S (S i)) (seg :: y :: segs))
      with (seg :: y :: take i segs).
    change (take (S i) (y :: segs)) with (y :: take i segs).
    cbv iota. by rewrite !append_assoc.
Qed.

(** C5. The breadcrumb labels are the non-empty segments of the current
    path split on slashes, in order; the path attached to the label at
    index [i] is the first [i + 1] segments joined with slashes, followed
    by a slash; these paths are the running prefixes of the segments. *)
Theorem breadcrumbSegments_spec (currentPath : string) :
  let segs := List.filter truthy (split "/" currentPath) in
  (breadcrumbSegments currentPath).*1 = segs /\
  (forall i,
     breadcrumbSegments currentPath !! i =
     (fun seg => (seg, join "/" (take (S i) segs) +:+ "/")) <$> segs !! i) /\
  (breadcrumbSegments currentPath).*2 = runningPrefixes "" segs.
Proof.
  intros segs. unfold breadcrumbSegments.
  rewrite pathSegments_filter. fold segs.
  assert (forall i,
    imap (fun idx seg => (seg, pathUpTo segs idx)) segs !! i =
    (fun seg => (seg, join "/" (take (S i) segs) +:+ "/")) <$> segs !! i)
    as Hlook.
  { intros i. rewrite list_lookup_imap. unfold pathUpTo.
    by replace (i + 1)%nat with (S i) by lia. }
  split; [|split; [done|]].
  - apply list_eq. intros i. rewrite list_lookup_fmap, Hlook.
    by destruct (segs !! i).
  - apply list_eq. intros i.
    rewrite list_lookup_fmap, Hlook, runningPrefixes_lookup.
    by destruct (segs !! i).
Qed.

(** ** Byte sizes *)

(** [roundTenths] is the rounding [toFixed] asks for: the result is within
    half a tenth of the quotient and a tie goes up. *)
Lemma roundTenths_nearest (num den : Z) :
  (0 < den)%Z ->
  let n := roundTenths num den in
  (2 * den * n - den <= 2 * 10 * num < 2 * den * n + den)%Z.
Proof.
  intros Hden n. unfold n, roundTenths.
  pose proof (Z.div_mod (2 * 10 * num + den) (2 * den)) as Hdm.
  pose proof (Z.mod_pos_bound (2 * 10 * num + den) (2 * den)) as Hb.
  lia.
Qed.

(** C6. [formatSize] on 512, 2048 and 5242880. *)
Theorem formatSize_examples :
  formatSize 512 = "512 B" /\
  formatSize 2048 = "2.0 KB" /\
  formatSize 5242880 = "5.0 MB".
Proof. repeat split; vm_compute; reflexivity. Qed.

(** ** The initial fetch *)

(** C7. When the request is rejected, or its body is not JSON, the effect
    run at mount from the initial state leaves [files] empty, clears
    [loading], writes one line on the error console and makes no second
    request; the render that follows is a listing with no row and no
    breadcrumb, not the loading paragraph. *)
Theorem fetch_failure_empty_listing
    (url : string) (outcome : Promise Response) (err : string) :
  outcome = Rejected err \/
  (exists res, outcome = Fulfilled res /\ json res = Rejected err) ->
  let w := mountEffect url outcome {| view := initialView; trace := [] |} in
  files (view w) = files initialView /\
  files (view w) = [] /\
  loading (view w) = false /\
  currentPath (view w) = "" /\
  trace w = [FetchCall url; ConsoleError "Failed to fetch files:" err] /\
  render (view w) = Listing [] [].
Proof.
  intros Hfail w.
  assert (andThen outcome json = Rejected err) as Hrej.
  { destruct Hfail as [->|(res & -> & Hres)]; [done|]. by simpl. }
  unfold w, mountEffect, seqAction, settle. simpl.
  rewrite Hrej. by vm_compute.
Qed.

(** ** The statements at the sample data *)

Lemma grouper_fullPath_startsWith_witness :
  sampleFile ∈ grouper sampleRecords "" /\
  startsWith (fullPath sampleFile) "" = true.
Proof.
  assert (sampleFile ∈ grouper sampleRecords "") as Hin
    by decide_by_evaluation.
  split; [exact Hin|].
  exact (grouper_fullPath_startsWith sampleRecords "" sampleFile Hin).
Defined.

Lemma grouper_fullPath_shape_witness :
  NoDup (Key <$> sampleRecords) /\
  sampleFile ∈ grouper sampleRecords "" /\
  (type sampleFile = file ->
   exists i r, sampleRecords !! i = Some r /\ item sampleFile = Some r /\
     Key r = fullPath sampleFile /\
     forall j r', sampleRecords !! j = Some r' ->
       Key r' = fullPath sampleFile -> j = i).
Proof.
  assert (NoDup (Key <$> sampleRecords)) as Hnd
    by decide_by_evaluation.
  assert (sampleFile ∈ grouper sampleRecords "") as Hin
    by decide_by_evaluation.
  split; [exact Hnd|]. split; [exact Hin|].
  exact (proj2 (grouper_fullPath_shape sampleRecords "" sampleFile Hnd Hin)).
Defined.

Lemma grouper_first_occurrence_wins_witness :
  yields "" {| Key := "a"; Size := 7;
               LastModified := "2024-07-01T00:00:00Z" |}
    = Some sampleClashFile /\
  sampleClashFile ∈ grouper sampleClash "" /\
  sampleFolder ∉ grouper sampleClash "".
Proof.
  destruct (grouper_first_occurrence_wins sampleClash "")
    as (Hnd & Hiff & Hkept).
  split; [reflexivity|]. split.
  - apply Hiff. exists 0%nat, {| Key := "a"; Size := 7;
                               LastModified := "2024-07-01T00:00:00Z" |}.
    split; [reflexivity|]. split; [reflexivity|]. intros j f' e' Hj. lia.
  - intros Hin. apply Hiff in Hin as (i & f & Hi & Hy & Hfirst).
    destruct i as [|i].
    + injection Hi as <-. discriminate Hy.
    + apply (Hfirst 0%nat {| Key := "a"; Size := 7;
                             LastModified := "2024-07-01T00:00:00Z" |}
               sampleClashFile); [lia|reflexivity|reflexivity|reflexivity].
Defined.

Lemma grouper_deterministic_witness :
  GrouperRun sampleRecords "" (grouper sampleRecords "") /\
  GrouperRun sampleRecords "" [sampleFolder; sampleFile] /\
  grouper sampleRecords "" = [sampleFolder; sampleFile].
Proof.
  assert (GrouperRun sampleRecords "" (grouper sampleRecords "")) as H1
    by apply GrouperRun_grouper.
  assert (GrouperRun sampleRecords "" [sampleFolder; sampleFile]) as H2.
  { exists (runLoop "" (filtered sampleRecords "") initState).
    split; [apply runLoop_rtc_LoopStep|vm_compute; reflexivity]. }
  split; [exact H1|]. split; [exact H2|].
  exact (grouper_deterministic sampleRecords "" _ _ H1 H2).
Defined.

Lemma grouper_folder_not_empty_witness :
  Forall (fun f => doubleSlash (Key f) = false /\
                   trailingSlash (Key f) = false) sampleRecords /\
  sampleFolder ∈ grouper sampleRecords "" /\
  type sampleFolder = folder /\
  grouper sampleRecords (fullPath sampleFolder) <> [].
Proof.
  assert (Forall (fun f => doubleSlash (Key f) = false /\
                           trailingSlash (Key f) = false) sampleRecords)
    as Hkeys by (repeat constructor).
  assert (sampleFolder ∈ grouper sampleRecords "") as Hin
    by decide_by_evaluation.
  split; [exact Hkeys|]. split; [exact Hin|]. split; [reflexivity|].
  exact (grouper_folder_not_empty sampleRecords "" sampleFolder
           Hkeys Hin eq_refl).
Defined.

Lemma fetch_failure_empty_listing_witness :
  (sampleBadResponse = Rejected "SyntaxError: Unexpected token <" \/
   exists res, sampleBadResponse = Fulfilled res /\
               json res = Rejected "SyntaxError: Unexpected token <") /\
  render (view (mountEffect "https://api.example/files" sampleBadResponse
                  {| view := initialView; trace := [] |}))
  = Listing [] [].
Proof.
  assert (sampleBadResponse = Rejected "SyntaxError: Unexpected token <" \/
          exists res, sampleBadResponse = Fulfilled res /\
            json res = Rejected "SyntaxError: Unexpected token <") as Hfail.
  { right. eexists. split; reflexivity. }
  split; [exact Hfail|].
  exact (proj2 (proj2 (proj2 (proj2 (proj2
    (fetch_failure_empty_listing "https://api.example/files"
       sampleBadResponse _ Hfail)))))).
Defined.

(** * Further properties *)

(** ** Splitting and joining *)

Section SplitJoin.

Implicit Types (s t : string) (c sep : ascii) (segs : list string).

(** A string without the separator is its own only segment. *)
Lemma split_sepFree sep s : sepFree sep s = true -> split sep s = [s].
Proof.
  induction s as [|c s IH]; [done|]. simpl.
  intros [Hc Hs]%andb_prop. apply negb_true_iff in Hc.
  by rewrite Hc, (IH Hs).
Qed.

(** Before the first separator: the first segment. *)
Lemma split_sepFree_app sep s t :
  sepFree sep s = true ->
  split sep (s +:+ String sep t) = s :: split sep t.
Proof.
  induction s as [|c s IH].
  - intros _. change ("" +:+ String sep t) with (String sep t). simpl. by rewrite Ascii.eqb_refl.
  - intros H. simpl in H. apply andb_prop in H as [Hc Hs].
    apply negb_true_iff in Hc.
    rewrite append_cons. simpl. by rewrite Hc, (IH Hs).
Qed.

Lemma split_all_sepFree sep s :
  Forall (fun x => sepFree sep x = true) (split sep s).
Proof.
  induction s as [|c s IH]; simpl; [by repeat constructor|].
  destruct (Ascii.eqb c sep) eqn:Hc; [by constructor|].
  destruct (split sep s) as [|seg segs] eqn:Hs.
  { by apply split_not_nil in Hs. }
  inversion IH as [|? ? Hseg Hsegs]; subst.
  constructor; [|done]. simpl. by rewrite Hc.
Qed.

Lemma split_singleton sep s seg : split sep s = [seg] -> s = seg.
Proof.
  revert seg. induction s as [|c s IH]; intros seg; simpl.
  - by intros [= <-].
  - destruct (Ascii.eqb c sep).
    + intros [= <- H]. by apply split_not_nil in H.
    + destruct (split sep s) as [|seg' segs] eqn:Hs.
      { by apply split_not_nil in Hs. }
      intros [= <- ->]. f_equal. by apply IH.
Qed.

Lemma join_two (j x y : string) segs :
  join j (x :: y :: segs) = x +:+ j +:+ join j (y :: segs).
Proof. reflexivity. Qed.

Lemma join_snoc (j : string) segs (x : string) :
  segs <> [] -> join j (segs ++ [x]) = join j segs +:+ j +:+ x.
Proof.
  induction segs as [|y segs IH]; [done|]. intros _.
  destruct segs as [|z segs]; [reflexivity|].
  change ((y :: z :: segs) ++ [x]) with (y :: z :: (segs ++ [x])).
  rewrite !join_two.
  change (z :: segs ++ [x]) with ((z :: segs) ++ [x]).
  rewrite IH by done. by rewrite !append_assoc.
Qed.

(** Splitting the path made of slash-free segments gives the segments back,
    and one empty segment for the final slash. *)
Lemma split_dirOf segs :
  segs <> [] -> Forall (fun x => sepFree "/" x = true) segs ->
  split "/" (join "/" segs +:+ "/") = segs ++ [""].
Proof.
  induction segs as [|x segs IH]; [done|]. intros _ Hall.
  inversion Hall as [|? ? Hx Hsegs]; subst.
  destruct segs as [|y segs].
  - simpl join. change (x +:+ "/") with (x +:+ String "/" "").
    by rewrite split_sepFree_app.
  - rewrite join_two, !append_assoc.
    change ("/" +:+ join "/" (y :: segs) +:+ "/")
      with (String "/" (join "/" (y :: segs) +:+ "/")).
    rewrite split_sepFree_app by done. by rewrite IH.
Qed.

End SplitJoin.

(** X1. Joining the segments of a split with the separator gives the string
    back, and no segment contains the separator. *)
Theorem join_split_roundtrip (sep : ascii) (s : string) :
  join (String sep "") (split sep s) = s /\
  Forall (fun seg => sepFree sep seg = true) (split sep s).
Proof.
  split; [|apply split_all_sepFree].
  induction s as [|c s IH]; [done|]. simpl.
  destruct (Ascii.eqb c sep) eqn:Hc.
  - apply Ascii.eqb_eq in Hc as ->.
    destruct (split sep s) as [|seg segs] eqn:Hs.
    { by apply split_not_nil in Hs. }
    rewrite join_two, IH. reflexivity.
  - destruct (split sep s) as [|seg segs] eqn:Hs.
    { by apply split_not_nil in Hs. }
    destruct segs as [|seg' segs].
    + simpl in *. by rewrite IH.
    + rewrite join_two in *. by rewrite append_cons, IH.
Qed.

(** ** The shape of the items *)

Section Shape.

Variable currentPath : string.

(** The first segment of a split has no separator. *)
Lemma split_head_sepFree sep s seg rest :
  split sep s = seg :: rest -> sepFree sep seg = true.
Proof.
  intros Hs. pose proof (split_all_sepFree sep s) as Hall.
  rewrite Hs in Hall. by inversion Hall.
Qed.

(** What a record yields, by kind: a folder for a key that goes on after
    the name and a slash, a file for a key that ends with the name. *)
Lemma yields_shape f e :
  yields currentPath f = Some e ->
  goodSegment (name e) /\
  ((type e = folder /\ item e = None /\
    fullPath e = currentPath +:+ name e +:+ "/" /\
    exists more, Key f = fullPath e +:+ more)
   \/
   (type e = file /\ item e = Some f /\
    fullPath e = currentPath +:+ name e /\ Key f = fullPath e)).
Proof.
  intros Hy.
  destruct (yields_inv _ _ _ Hy) as (Hp & seg & remaining & Hs & Ht & ->).
  rewrite name_entryOf.
  split; [split; [done|by eapply split_head_sepFree]|].
  pose proof (startsWith_slice _ _ Hp) as Hkey.
  unfold entryOf. destruct remaining as [|r1 rs]; simpl.
  - right. apply split_singleton in Hs. rewrite Hs in Hkey. done.
  - left. repeat split; [].
    destruct (split_second _ _ _ _ _ Hs) as (more & Hrest & _).
    exists more. rewrite Hkey at 1. rewrite Hrest.
    by rewrite !append_assoc.
Qed.

(** The name of an item is the first segment of its path past the current
    path. *)
Lemma yields_name_of_fullPath f e :
  yields currentPath f = Some e ->
  head (split "/" (slice (fullPath e) (String.length currentPath)))
  = Some (name e).
Proof.
  intros (Hgood & Hshape)%yields_shape. destruct Hgood as [_ Hfree].
  destruct Hshape as [(_ & _ & -> & _)|(_ & _ & -> & _)];
    rewrite slice_app.
  - change (name e +:+ "/") with (name e +:+ String "/" "").
    by rewrite split_sepFree_app.
  - by rewrite split_sepFree.
Qed.

Lemma grouper_fullPath_NoDup fs :
  NoDup (fullPath <$> grouper fs currentPath).
Proof.
  pose proof (grouper_names_NoDup currentPath fs) as Hnd.
  apply (NoDup_fmap_1
    (fun p => head (split "/" (slice p (String.length currentPath))))).
  rewrite <- list_fmap_compose.
  apply (NoDup_fmap_2 Some) in Hnd. rewrite <- list_fmap_compose in Hnd.
  erewrite list_fmap_ext; [exact Hnd|].
  intros i e Hi. simpl.
  assert (e ∈ grouper fs currentPath) as He
    by (by eapply list_elem_of_lookup_2).
  apply grouper_elem in He as (j & f & _ & Hy & _).
  by eapply yields_name_of_fullPath.
Qed.

End Shape.

(** X2. Every item is a direct child of the current path: its name is not
    empty and has no slash; a folder's path is the current path, the name
    and a slash, with no backing record; a file's path is the current path
    and the name, and it is the key of its backing record, a record of the
    input. *)
Theorem grouper_direct_children
    (fs : list FileItem) (currentPath : string) (e : DisplayItem) :
  e ∈ grouper fs currentPath ->
  truthy (name e) = true /\ sepFree "/" (name e) = true /\
  match type e with
  | folder =>
      fullPath e = currentPath +:+ name e +:+ "/" /\ item e = None
  | file =>
      fullPath e = currentPath +:+ name e /\
      exists r, r ∈ fs /\ item e = Some r /\ Key r = fullPath e
  end.
Proof.
  intros (i & f & Hi & Hy & _)%grouper_elem.
  destruct (yields_shape _ _ _ Hy) as ([Ht Hfree] & Hshape).
  split; [done|]. split; [done|].
  destruct Hshape as [(-> & Hit & Hfp & _)|(-> & Hit & Hfp & Hkey)].
  - done.
  - split; [done|]. exists f.
    split; [by eapply list_elem_of_lookup_2|done].
Qed.

(** X3. The table body renders for every input: no row reads the size of a
    missing backing record.  There is one row per item, in order, with the
    item's path as key and its name as label; the keys are pairwise
    distinct; a file row links to the delivery URL, a slash and the key of
    its own record and shows that record's size; a folder row has no link
    and shows two dashes. *)
Theorem renderRows_ok
    (cdnUrl : string) (fs : list FileItem) (currentPath : string) :
  exists rows,
    renderRows cdnUrl (grouper fs currentPath) = Some rows /\
    rowKey <$> rows = fullPath <$> grouper fs currentPath /\
    label <$> rows = name <$> grouper fs currentPath /\
    NoDup (rowKey <$> rows) /\
    Forall2 (fun e r =>
               link r = (fun it => cdnUrl +:+ "/" +:+ Key it) <$> item e /\
               sizeText r
               = default "--" ((fun it => formatSize (Size it)) <$> item e))
            (grouper fs currentPath) rows.
Proof.
  assert (Forall (fun e =>
            (type e = folder /\ item e = None) \/
            (type e = file /\
             exists it, item e = Some it /\ Key it = fullPath e))
          (grouper fs currentPath)) as Hshape.
  { apply Forall_forall. intros e (i & f & _ & Hy & _)%grouper_elem.
    destruct (yields_shape _ _ _ Hy)
      as (_ & [(? & ? & _)|(? & ? & _ & ?)]); [by left|right].
    split; [done|]. by exists f. }
  assert (Forall (is_Some ∘ renderRow cdnUrl) (grouper fs currentPath))
    as Hall.
  { eapply Forall_impl; [exact Hshape|]. intros e He.
    unfold renderRow. simpl.
    destruct He as [[-> _]|[-> (it & -> & _)]]; by eexists. }
  apply mapM_is_Some_2 in Hall as [rows Hrows].
  exists rows. split; [done|].
  apply mapM_Some_1 in Hrows.
  assert (rowKey <$> rows = fullPath <$> grouper fs currentPath
          /\ label <$> rows = name <$> grouper fs currentPath) as [Hk Hl].
  { clear Hshape.
    induction Hrows as [|e r es rs Her _ [IHk IHl]]; [done|].
    rewrite !fmap_cons, IHk, IHl. unfold renderRow in Her.
    destruct (type e); [|destruct (item e)]; by simplify_eq. }
  split; [done|]. split; [done|].
  split; [rewrite Hk; apply grouper_fullPath_NoDup|].
  clear Hk Hl.
  induction Hrows as [|e r es rs Her _ IH]; [constructor|].
  inversion Hshape as [|? ? He Hes]; subst.
  constructor; [|by apply IH].
  unfold renderRow in Her.
  destruct He as [[Ht Hit]|[Ht (it & Hit & Hkey)]];
    rewrite Ht, ?Hit in Her; simplify_eq; simpl; rewrite Hit; simpl;
    [done|by rewrite Hkey].
Qed.

(** ** Appending records *)

Section Append.

Variable currentPath : string.

(** The pass pushes [pushed] after what was there. *)
Lemma fold_visit_pushed fs : forall st,
  displayItems (fold_left (visit currentPath) fs st)
  = displayItems st ++ pushed currentPath fs (seen st).
Proof.
  induction fs as [|f fs IH]; intros st; simpl.
  { by rewrite app_nil_r. }
  rewrite IH. unfold visit.
  destruct (yields currentPath f) as [e|]; [|done].
  case_bool_decide; [done|]. simpl. by rewrite <- app_assoc.
Qed.

(** With more names seen already, the pass pushes what it would have
    pushed, without the items of those names. *)
Lemma pushed_union fs : forall S T : gset string,
  pushed currentPath fs (S ∪ T)
  = filter (fun e => name e ∉ S) (pushed currentPath fs T).
Proof.
  induction fs as [|f fs IH]; intros S T; simpl; [done|].
  destruct (yields currentPath f) as [e|]; [|apply IH].
  destruct (decide (name e ∈ T)) as [HT|HT].
  - rewrite !bool_decide_eq_true_2; [apply IH|done|].
    apply elem_of_union. by right.
  - rewrite (bool_decide_eq_false_2 (name e ∈ T)) by done.
    destruct (decide (name e ∈ S)) as [HS|HS].
    + rewrite bool_decide_eq_true_2 by (apply elem_of_union; by left).
      rewrite filter_cons_False by (intros Hn; by apply Hn).
      rewrite <- IH. f_equal.
      apply set_eq. intros n.
      rewrite !elem_of_union, elem_of_singleton.
      split; [tauto|]. intros [?|[->|?]]; tauto.
    + rewrite bool_decide_eq_false_2
        by (rewrite elem_of_union; tauto).
      rewrite filter_cons_True by done.
      rewrite <- IH. do 2 f_equal.
      apply set_eq. intros n.
      rewrite !elem_of_union, elem_of_singleton. tauto.
Qed.

Lemma grouper_pushed fs : grouper fs currentPath = pushed currentPath fs ∅.
Proof. rewrite grouper_fold. by rewrite fold_visit_pushed. Qed.

(** After a pass from fresh locals, [seen] is the set of displayed names. *)
Lemma seen_after_fold fs n :
  n ∈ seen (fold_left (visit currentPath) fs initState)
  <-> n ∈ (name <$> grouper fs currentPath).
Proof.
  rewrite grouper_fold.
  apply (loopInv_fold currentPath fs initState loopInv_init).
Qed.

End Append.

Lemma filter_none {A} (P : A -> Prop) `{!forall x, Decision (P x)}
    (l : list A) :
  Forall (fun x => ~ P x) l -> filter P l = [].
Proof.
  induction 1 as [|x l Hx _ IH]; [done|].
  by rewrite filter_cons_False.
Qed.

(** X4. The items for two record lists in sequence are the items of the
    first list followed by the items of the second list whose names the
    first list has not produced.  So repeating the records changes
    nothing. *)
Theorem grouper_app (fs1 fs2 : list FileItem) (currentPath : string) :
  grouper (fs1 ++ fs2) currentPath
  = grouper fs1 currentPath ++
    filter (fun e => name e ∉ (name <$> grouper fs1 currentPath))
           (grouper fs2 currentPath)
  /\ grouper (fs1 ++ fs1) currentPath = grouper fs1 currentPath.
Proof.
  assert (forall gs1 gs2,
    grouper (gs1 ++ gs2) currentPath
    = grouper gs1 currentPath ++
      filter (fun e => name e ∉ (name <$> grouper gs1 currentPath))
             (grouper gs2 currentPath)) as Happ.
  { intros gs1 gs2.
    rewrite (grouper_fold _ (gs1 ++ gs2)), fold_left_app, fold_visit_pushed.
    rewrite <- grouper_fold. f_equal.
    rewrite <- (right_id_L ∅ (∪) (seen _)), pushed_union.
    rewrite <- grouper_pushed.
    apply list_filter_iff. intros e. by rewrite seen_after_fold. }
  split; [apply Happ|].
  rewrite Happ, filter_none, app_nil_r; [done|].
  apply Forall_forall. intros e He Hn. apply Hn.
  by apply list_elem_of_fmap_2.
Qed.

(** ** Records that contribute nothing *)

Lemma grouper_single_nil (currentPath : string) (f : FileItem) :
  grouper [f] currentPath = [] <-> yields currentPath f = None.
Proof.
  rewrite grouper_single. by destruct (yields currentPath f).
Qed.

Lemma startsWith_refl (s : string) : startsWith s s = true.
Proof. rewrite <- (append_nil_r s) at 1. apply startsWith_app. Qed.

Lemma yields_None_iff (currentPath : string) (f : FileItem) :
  yields currentPath f = None <->
  startsWith (Key f) currentPath = false \/
  Key f = currentPath \/
  exists more, Key f = currentPath +:+ String "/" more.
Proof.
  unfold yields. split.
  - destruct (startsWith (Key f) currentPath) eqn:Hp; [|by left].
    intros Hy. right. pose proof (startsWith_slice _ _ Hp) as Hkey.
    destruct (split "/" _) as [|seg remaining] eqn:Hs.
    { by apply split_not_nil in Hs. }
    destruct (truthy seg) eqn:Ht; [done|].
    destruct (split_head_falsy _ _ _ _ Hs Ht) as [Hr|[more Hr]];
      rewrite Hr in Hkey.
    + left. by rewrite append_nil_r in Hkey.
    + right. by exists more.
  - intros [->|[Hk|[more Hk]]]; [done| |].
    + rewrite Hk, startsWith_refl.
      rewrite <- (append_nil_r currentPath) at 1. by rewrite slice_app.
    + rewrite Hk, startsWith_app, slice_app. reflexivity.
Qed.

(** X5. The listing is empty exactly when no record contributes on its
    own; so it is empty for no records and for a path no key starts
    with. *)
Theorem grouper_nil_iff (fs : list FileItem) (currentPath : string) :
  (grouper fs currentPath = [] <->
   Forall (fun f => grouper [f] currentPath = []) fs) /\
  (Forall (fun f => startsWith (Key f) currentPath = false) fs ->
   grouper fs currentPath = []).
Proof.
  assert (grouper fs currentPath = [] <->
          Forall (fun f => grouper [f] currentPath = []) fs) as Hiff.
  { split.
    - intros Hnil. apply Forall_forall. intros f Hf.
      apply grouper_single_nil.
      destruct (yields currentPath f) as [e|] eqn:Hy; [|done].
      pose proof (grouper_name_kept _ _ _ _ Hf Hy) as Hin.
      rewrite Hnil in Hin. by apply elem_of_nil in Hin.
    - intros Hall.
      destruct (grouper fs currentPath) as [|e l] eqn:Hg; [done|].
      assert (e ∈ grouper fs currentPath) as He
        by (rewrite Hg; apply list_elem_of_here).
      apply grouper_elem in He as (i & f & Hi & Hy & _).
      apply list_elem_of_lookup_2 in Hi.
      apply (proj1 (Forall_forall _ _) Hall), grouper_single_nil in Hi.
      congruence. }
  split; [done|]. intros Hall. apply Hiff.
  eapply Forall_impl; [exact Hall|]. intros f Hf. simpl in Hf.
  apply grouper_single_nil, yields_None_iff. by left.
Qed.

(** X6. A record contributes nothing at a path exactly when its key does
    not start with the path, or is the path itself, or goes on with a
    slash right after the path. *)
Theorem record_hidden_iff (f : FileItem) (currentPath : string) :
  grouper [f] currentPath = [] <->
  startsWith (Key f) currentPath = false \/
  Key f = currentPath \/
  exists more, Key f = currentPath +:+ String "/" more.
Proof. rewrite grouper_single_nil. apply yields_None_iff. Qed.

(** ** Paths and breadcrumbs *)

Section Paths.

Implicit Types (p q : string) (segs : list string).

Lemma filter_truthy_id segs :
  Forall (fun x => truthy x = true) segs -> List.filter truthy segs = segs.
Proof.
  induction 1 as [|x l Hx _ IH]; [done|]. simpl. by rewrite Hx, IH.
Qed.

Lemma pathSegments_good p : Forall goodSegment (pathSegments p).
Proof.
  rewrite pathSegments_filter. apply Forall_forall. intros x Hx.
  apply list_elem_of_In, List.filter_In in Hx as [Hin Ht].
  split; [done|].
  apply list_elem_of_In in Hin.
  by apply (proj1 (Forall_forall _ _) (split_all_sepFree "/" p)).
Qed.

(** The segments of a path made of good segments are those segments. *)
Lemma pathSegments_dirOf segs :
  Forall goodSegment segs -> pathSegments (dirOf segs) = segs.
Proof.
  intros Hgood. destruct segs as [|x segs]; [done|].
  unfold dirOf. rewrite pathSegments_filter, split_dirOf; [|done|].
  - rewrite List.filter_app.
    change (List.filter truthy [""]) with (@nil string). rewrite app_nil_r.
    apply filter_truthy_id. eapply Forall_impl; [exact Hgood|].
    by intros ? [? ?].
  - eapply Forall_impl; [exact Hgood|]. by intros ? [? ?].
Qed.

Lemma canonicalPath_iff p :
  canonicalPath p <-> exists segs, Forall goodSegment segs /\ p = dirOf segs.
Proof.
  unfold canonicalPath. split.
  - intros Hp. exists (pathSegments p). split; [apply pathSegments_good|done].
  - intros (segs & Hgood & ->). by rewrite pathSegments_dirOf.
Qed.

Lemma pathUpTo_dirOf segs idx :
  (idx < length segs)%nat -> pathUpTo segs idx = dirOf (take (S idx) segs).
Proof.
  intros Hidx. unfold pathUpTo. replace (idx + 1)%nat with (S idx) by lia.
  destruct segs as [|x segs]; [simpl in Hidx; lia|done].
Qed.

Lemma join_app (j : string) segs1 segs2 :
  segs1 <> [] -> segs2 <> [] ->
  join j (segs1 ++ segs2) = join j segs1 +:+ j +:+ join j segs2.
Proof.
  intros H1 H2. induction segs1 as [|x segs1 IH]; [done|].
  destruct segs1 as [|y segs1].
  - destruct segs2; [done|reflexivity].
  - change ((x :: y :: segs1) ++ segs2) with (x :: y :: (segs1 ++ segs2)).
    rewrite !join_two.
    change (y :: segs1 ++ segs2) with ((y :: segs1) ++ segs2).
    rewrite IH by done. by rewrite !append_assoc.
Qed.

(** The path up to a breadcrumb is a prefix of the path of all segments. *)
Lemma dirOf_take_prefix segs idx :
  (idx < length segs)%nat ->
  exists r, dirOf segs = pathUpTo segs idx +:+ r.
Proof.
  intros Hidx. rewrite pathUpTo_dirOf by done.
  pose proof (take_drop (S idx) segs) as Hsplit.
  assert (take (S idx) segs <> []) as Hne.
  { destruct segs; [simpl in Hidx; lia|done]. }
  remember (take (S idx) segs) as xs eqn:Hxs.
  remember (drop (S idx) segs) as ys eqn:Hys.
  clear Hxs Hys. subst segs.
  destruct ys as [|y ys].
  - exists "". by rewrite app_nil_r, append_nil_r.
  - exists (join "/" (y :: ys) +:+ "/").
    destruct xs as [|x xs]; [done|].
    unfold dirOf.
    change ((x :: xs) ++ y :: ys) with (x :: (xs ++ y :: ys)).
    change (x :: (xs ++ y :: ys)) with ((x :: xs) ++ y :: ys).
    rewrite join_app by done. by rewrite !append_assoc.
Qed.

(** Entering a folder below a canonical path appends its name. *)
Lemma dirOf_snoc segs x :
  dirOf (segs ++ [x]) = dirOf segs +:+ x +:+ "/".
Proof.
  destruct segs as [|y segs]; [reflexivity|].
  unfold dirOf. change ((y :: segs) ++ [x]) with (y :: (segs ++ [x])).
  change (y :: (segs ++ [x])) with ((y :: segs) ++ [x]).
  rewrite join_snoc by done. by rewrite !append_assoc.
Qed.

(** The breadcrumbs of the path made of good segments. *)
Lemma breadcrumbSegments_dirOf segs :
  Forall goodSegment segs ->
  breadcrumbSegments (dirOf segs)
  = imap (fun idx seg => (seg, dirOf (take (S idx) segs))) segs.
Proof.
  intros Hgood. unfold breadcrumbSegments.
  rewrite pathSegments_dirOf by done.
  apply list_eq. intros i. rewrite !list_lookup_imap.
  destruct (segs !! i) as [x|] eqn:Hi; [|done]. simpl.
  by rewrite pathUpTo_dirOf by (by eapply lookup_lt_Some).
Qed.

End Paths.

(** X7. Clicking a breadcrumb cuts the trail after it: the breadcrumbs of
    the path attached to the breadcrumb at an index are the breadcrumbs up
    to and with that index, for every current path. *)
Theorem breadcrumb_click_truncates
    (currentPath : string) (idx : nat) (seg upTo : string) :
  breadcrumbSegments currentPath !! idx = Some (seg, upTo) ->
  breadcrumbSegments upTo = take (S idx) (breadcrumbSegments currentPath).
Proof.
  unfold breadcrumbSegments at 1. rewrite list_lookup_imap.
  destruct (pathSegments currentPath !! idx) as [x|] eqn:Hi; [|done].
  simpl. intros [= <- <-].
  pose proof (lookup_lt_Some _ _ _ Hi) as Hlt.
  rewrite pathUpTo_dirOf by done.
  rewrite breadcrumbSegments_dirOf
    by (apply Forall_take, pathSegments_good).
  unfold breadcrumbSegments.
  apply list_eq. intros i.
  destruct (decide (i < S idx)%nat) as [Hlt'|Hge].
  - rewrite lookup_take_lt by done. rewrite !list_lookup_imap.
    rewrite lookup_take_lt by done.
    destruct (pathSegments currentPath !! i) as [y|] eqn:Hy; [|done].
    simpl. rewrite take_take.
    replace (S i `min` S idx)%nat with (S i) by lia.
    by rewrite pathUpTo_dirOf by (by eapply lookup_lt_Some).
  - rewrite lookup_take_ge by lia. rewrite list_lookup_imap.
    by rewrite lookup_take_ge by lia.
Qed.

(** The breadcrumbs of a folder below a canonical path. *)
Lemma breadcrumbSegments_folder
    (fs : list FileItem) (currentPath : string) (e : DisplayItem) :
  canonicalPath currentPath ->
  e ∈ grouper fs currentPath ->
  type e = folder ->
  breadcrumbSegments (fullPath e)
  = breadcrumbSegments currentPath ++ [(name e, fullPath e)].
Proof.
  intros (segs & Hgood & ->)%canonicalPath_iff
         (i & f & _ & Hy & _)%grouper_elem Ht.
  destruct (yields_shape _ _ _ Hy)
    as (Hname & [(_ & _ & Hfp & _)|(Hfile & _)]); [|congruence].
  assert (fullPath e = dirOf (segs ++ [name e])) as Hdir
    by (by rewrite dirOf_snoc).
  assert (Forall goodSegment (segs ++ [name e])) as Hgood'
    by (apply Forall_app; split; [done|by constructor]).
  rewrite Hdir at 1.
  rewrite !breadcrumbSegments_dirOf by done.
  rewrite imap_app. simpl. f_equal.
  - apply imap_ext. intros j x Hj. simpl. f_equal. f_equal.
    apply take_app_le. apply lookup_lt_Some in Hj. lia.
  - rewrite Nat.add_0_r. rewrite Hdir. do 3 f_equal.
    apply take_ge. rewrite length_app. simpl. lia.
Qed.

(** X8. Opening a folder from a canonical path adds one breadcrumb: the
    folder's name, with the folder's path. *)
Theorem breadcrumb_open_folder
    (fs : list FileItem) (currentPath : string) (e : DisplayItem) :
  canonicalPath currentPath ->
  e ∈ grouper fs currentPath ->
  type e = folder ->
  breadcrumbSegments (fullPath e)
  = breadcrumbSegments currentPath ++ [(name e, fullPath e)].
Proof. apply breadcrumbSegments_folder. Qed.

(** ** Sessions *)

Section Sessions.

Lemma mountEffect_settled url outcome :
  let w := mountEffect url outcome {| view := initialView; trace := [] |} in
  loading (view w) = false /\ currentPath (view w) = "".
Proof.
  unfold mountEffect, seqAction, settle.
  by destruct (andThen outcome json).
Qed.

(** Where a click can lead. *)
Lemma handleClick_cases c w :
  loading (view w) = false ->
  let p := currentPath (view w) in
  exists q,
    handleClick c w = setCurrentPath q w /\
    (q = p \/ q = "" \/
     (exists idx, (idx < length (pathSegments p))%nat /\
                  q = pathUpTo (pathSegments p) idx) \/
     (exists e, e ∈ grouper (files (view w)) p /\ type e = folder /\
                q = fullPath e)).
Proof.
  intros Hl p. unfold handleClick, render. rewrite Hl.
  assert (w = setCurrentPath p w) as Hsame
    by (by destruct w as [[? ? ?] ?]).
  destruct c as [|idx|idx].
  - exists "". split; [done|]. by right; left.
  - destruct (breadcrumbSegments _ !! idx) as [[seg upTo]|] eqn:Hc.
    + exists upTo. split; [done|]. right; right; left.
      unfold breadcrumbSegments in Hc. rewrite list_lookup_imap in Hc.
      fold p in Hc.
      destruct (pathSegments p !! idx) as [x|] eqn:Hx; [|done].
      simpl in Hc. injection Hc as <- <-.
      exists idx. split; [by eapply lookup_lt_Some|done].
    + exists p. split; [done|by left].
  - destruct (grouper _ _ !! idx) as [e|] eqn:He.
    + destruct (type e) eqn:Ht.
      * exists (fullPath e). split; [done|]. right; right; right.
        exists e. split; [by eapply list_elem_of_lookup_2|done].
      * exists p. split; [done|by left].
    + exists p. split; [done|by left].
Qed.

Lemma sessionInv_click w0 w c :
  sessionInv w0 w -> sessionInv w0 (handleClick c w).
Proof.
  intros (Htr & Hfs & Hl & Hcan & Hpre).
  destruct (handleClick_cases c w Hl) as (q & -> & Hq).
  unfold sessionInv. simpl. repeat split; [done..| |].
  - destruct Hq as [->|[->|[(idx & Hidx & ->)|(e & He & Ht & ->)]]].
    + done.
    + reflexivity.
    + apply canonicalPath_iff. eexists. split; [|by apply pathUpTo_dirOf].
      apply Forall_take, pathSegments_good.
    + apply canonicalPath_iff in Hcan as (segs & Hgood & Hp).
      apply grouper_elem in He as (i & f & _ & Hy & _).
      destruct (yields_shape _ _ _ Hy)
        as (Hname & [(_ & _ & Hfp & _)|(Hfile & _)]); [|congruence].
      apply canonicalPath_iff. exists (segs ++ [name e]). split.
      * apply Forall_app. split; [done|by constructor].
      * by rewrite dirOf_snoc, <- Hp.
  - destruct Hq as [->|[->|[(idx & Hidx & ->)|(e & He & Ht & ->)]]].
    + done.
    + by left.
    + right. destruct Hpre as [Hempty|(f & Hf & Hp)].
      { rewrite Hempty in Hidx. simpl in Hidx. lia. }
      exists f. split; [done|].
      destruct (dirOf_take_prefix _ _ Hidx) as [r Hr].
      rewrite Hcan in Hr.
      pose proof (startsWith_slice _ _ Hp) as Hkey.
      remember (pathUpTo (pathSegments (currentPath (view w))) idx) as q.
      remember (slice (Key f) (String.length (currentPath (view w)))) as x.
      rewrite Hr in Hkey. rewrite Hkey, append_assoc.
      apply startsWith_app.
    + right. apply grouper_elem in He as (i & f & Hi & Hy & _).
      destruct (yields_shape _ _ _ Hy)
        as (_ & [(_ & _ & _ & more & Hkey)|(Hfile & _)]); [|congruence].
      exists f. split; [by eapply list_elem_of_lookup_2|].
      rewrite Hkey. apply startsWith_app.
Qed.

Lemma sessionInv_clicks w0 clicks : forall w,
  sessionInv w0 w ->
  sessionInv w0 (fold_left (fun w c => handleClick c w) clicks w).
Proof.
  induction clicks as [|c clicks IH]; intros w Hw; [done|].
  simpl. by apply IH, sessionInv_click.
Qed.

Lemma sessionInv_session url outcome clicks :
  sessionInv (mountEffect url outcome {| view := initialView; trace := [] |})
             (session url outcome clicks).
Proof.
  apply sessionInv_clicks.
  destruct (mountEffect_settled url outcome) as [Hl Hp].
  unfold sessionInv. rewrite Hp. repeat split; [done|by left].
Qed.

End Sessions.

(** X9. In every session, after any clicks: nothing is requested or logged
    beyond what the mount effect did, the fetched records and the cleared
    loading flag stay, the current path is canonical (empty, or its
    segments each followed by a slash), and a non-empty current path is a
    prefix of the key of a fetched record. *)
Theorem session_invariant
    (url : string) (outcome : Promise Response) (clicks : list Click) :
  let w0 := mountEffect url outcome {| view := initialView; trace := [] |} in
  let w := session url outcome clicks in
  trace w = trace w0 /\
  files (view w) = files (view w0) /\
  loading (view w) = false /\
  dirOf (pathSegments (currentPath (view w))) = currentPath (view w) /\
  (currentPath (view w) = "" \/
   exists f, f ∈ files (view w) /\
             startsWith (Key f) (currentPath (view w)) = true).
Proof. apply sessionInv_session. Qed.

(** A canonical path that is not empty ends with a slash and starts with
    a unit that is not a slash. *)
Lemma canonicalPath_ends (p : string) :
  canonicalPath p -> p <> "" ->
  (exists x, p = x +:+ "/") /\
  (exists c p', p = String c p' /\ Ascii.eqb c "/" = false).
Proof.
  intros (segs & Hgood & ->)%canonicalPath_iff Hne.
  destruct segs as [|x segs]; [done|]. split; [by eexists|].
  inversion Hgood as [|? ? [Ht Hfree] _]; subst.
  destruct x as [|c x]; [done|]. simpl in Hfree.
  apply andb_prop in Hfree as [Hc _]. apply negb_true_iff in Hc.
  unfold dirOf. destruct segs as [|y segs].
  - simpl join. rewrite append_cons. by eexists _, _.
  - rewrite join_two, !append_cons. by eexists _, _.
Qed.

(** X10. In every session over records whose keys have no double slash
    and no trailing slash, the listing shown at a current path other than
    the root is never empty, whatever the clicks were. *)
Theorem session_listing_not_empty
    (url : string) (outcome : Promise Response) (clicks : list Click) :
  let w := session url outcome clicks in
  Forall (fun f => doubleSlash (Key f) = false /\
                   trailingSlash (Key f) = false) (files (view w)) ->
  currentPath (view w) <> "" ->
  grouper (files (view w)) (currentPath (view w)) <> [].
Proof.
  intros w Hkeys Hne.
  destruct (sessionInv_session url outcome clicks)
    as (_ & _ & _ & Hcan & Hpre). fold w in Hcan, Hpre.
  destruct Hpre as [?|(f & Hf & Hp)]; [done|].
  destruct (proj1 (Forall_forall _ _) Hkeys f Hf) as [Hds Hts].
  destruct (canonicalPath_ends _ Hcan Hne) as [[x Hx] _].
  destruct (yields (currentPath (view w)) f) as [e|] eqn:Hy.
  - pose proof (grouper_name_kept _ _ _ _ Hf Hy) as Hin.
    intros Hnil. rewrite Hnil in Hin. by apply elem_of_nil in Hin.
  - exfalso. apply yields_None_iff in Hy as [Hy|[Hy|[more Hy]]].
    + congruence.
    + rewrite Hy, Hx, trailingSlash_app in Hts. done.
    + rewrite Hy, Hx, append_assoc in Hds.
      change ("/" +:+ String "/" more)
        with (String "/" (String "/" more)) in Hds.
      by rewrite doubleSlash_app in Hds.
Qed.

Lemma startsWith_cons (d c : ascii) (s p : string) :
  startsWith (String d s) (String c p)
  = if Ascii.eqb d c then startsWith s p else false.
Proof. reflexivity. Qed.

(** Records that yield nothing can be left out. *)
Lemma pushed_filter (P : FileItem -> bool) (currentPath : string)
    (fs : list FileItem) :
  (forall f, f ∈ fs -> P f = false -> yields currentPath f = None) ->
  forall S, pushed currentPath (List.filter P fs) S = pushed currentPath fs S.
Proof.
  induction fs as [|f fs IH]; intros Hnone S; [done|].
  assert (forall S, pushed currentPath (List.filter P fs) S
                    = pushed currentPath fs S) as IH'.
  { apply IH. intros g Hg. apply Hnone. by apply list_elem_of_further. }
  simpl. destruct (P f) eqn:HP; simpl.
  - destruct (yields currentPath f) as [e|]; [|apply IH'].
    case_bool_decide; by rewrite IH'.
  - rewrite (Hnone f) by (done || apply list_elem_of_here). apply IH'.
Qed.

(** X11. A record whose key starts with a slash is never shown: in every
    session, after any clicks, the listing is the listing of the records
    without those keys. *)
Theorem leading_slash_records_invisible
    (url : string) (outcome : Promise Response) (clicks : list Click) :
  let w := session url outcome clicks in
  grouper (files (view w)) (currentPath (view w))
  = grouper (List.filter (fun f => negb (startsWith (Key f) "/"))
                         (files (view w)))
            (currentPath (view w)).
Proof.
  intros w.
  destruct (sessionInv_session url outcome clicks)
    as (_ & _ & _ & Hcan & _). fold w in Hcan.
  rewrite !grouper_pushed. symmetry. apply pushed_filter.
  intros f _ Hf. apply negb_false_iff in Hf.
  pose proof (startsWith_slice _ _ Hf) as Hkey.
  change ("/" +:+ slice (Key f) (String.length "/"))
    with (String "/" (slice (Key f) 1)) in Hkey.
  apply yields_None_iff.
  destruct (decide (currentPath (view w) = "")) as [Hroot|Hne].
  - right; right. exists (slice (Key f) 1). by rewrite Hroot.
  - left. destruct (canonicalPath_ends _ Hcan Hne)
      as [_ (c & p' & Hp & Hc)].
    rewrite Hp, Hkey, startsWith_cons.
    rewrite Ascii.eqb_sym in Hc. by rewrite Hc.
Qed.

(** ** Byte sizes, in general *)

Lemma numberToString_digit (d : Z) :
  (0 <= d < 10)%Z -> String.length (numberToString d) = 1%nat.
Proof.
  intros Hd.
  assert (d = 0 \/ d = 1 \/ d = 2 \/ d = 3 \/ d = 4 \/ d = 5 \/ d = 6 \/
          d = 7 \/ d = 8 \/ d = 9)%Z as Hcases by lia.
  repeat (destruct Hcases as [->|Hcases]; [reflexivity|]).
  by subst.
Qed.

(** The text of [toFixed1]: an integer part, a point and one digit, for
    the nearest number of tenths. *)
Lemma toFixed1_nearest (num den : Z) :
  (0 < den)%Z -> (0 <= num)%Z ->
  exists n,
    toFixed1 num den
      = numberToString (n / 10) +:+ "." +:+ numberToString (n mod 10) /\
    String.length (numberToString (n mod 10)) = 1%nat /\
    (2 * den * n - den <= 2 * 10 * num < 2 * den * n + den)%Z.
Proof.
  intros Hden Hnum. exists (roundTenths num den).
  split; [done|]. split.
  - apply numberToString_digit, Z.mod_pos_bound. lia.
  - by apply roundTenths_nearest.
Qed.

(** X12. From 1024 bytes up to, not including, 1024 * 1024 bytes the text
    is a number with one decimal followed by [KB]; that number is the
    multiple of a tenth nearest to [bytes / 1024], the upper one on a tie,
    and lies between 1.0 and 1024.0. *)
Theorem formatSize_KB (bytes : Z) :
  (1024 <= bytes < 1024 * 1024)%Z ->
  exists n,
    formatSize bytes
      = (numberToString (n / 10) +:+ "." +:+ numberToString (n mod 10))
        +:+ " KB" /\
    String.length (numberToString (n mod 10)) = 1%nat /\
    (10 <= n <= 10240)%Z /\
    (2 * 1024 * n - 1024 <= 2 * 10 * bytes < 2 * 1024 * n + 1024)%Z.
Proof.
  intros Hb. unfold formatSize.
  destruct (Z.ltb_spec bytes 1024); [lia|].
  destruct (Z.ltb_spec bytes (1024 * 1024)); [|lia].
  destruct (toFixed1_nearest bytes 1024) as (n & -> & Hd & Hn); [lia..|].
  exists n. repeat split; [done|lia..].
Qed.

(** X13. From 1024 * 1024 bytes on, for every exactly represented byte
    count, the text is a number with one decimal followed by [MB], however
    large the size: the multiple of a tenth nearest to
    [bytes / 1024 / 1024], the upper one on a tie, at least 1.0. *)
Theorem formatSize_MB (bytes : Z) :
  (1024 * 1024 <= bytes < 2 ^ 53)%Z ->
  exists n,
    formatSize bytes
      = (numberToString (n / 10) +:+ "." +:+ numberToString (n mod 10))
        +:+ " MB" /\
    String.length (numberToString (n mod 10)) = 1%nat /\
    (10 <= n)%Z /\
    (2 * 1048576 * n - 1048576 <= 2 * 10 * bytes
     < 2 * 1048576 * n + 1048576)%Z.
Proof.
  intros Hb. unfold formatSize.
  destruct (Z.ltb_spec bytes 1024); [lia|].
  destruct (Z.ltb_spec bytes (1024 * 1024)); [lia|].
  destruct (toFixed1_nearest bytes (1024 * 1024)) as (n & -> & Hd & Hn);
    [lia..|].
  exists n. repeat split; [done|lia..].
Qed.

(** X14. The last 51 byte counts below 1024 * 1024 are shown as
    [1024.0 KB], not as [1.0 MB]: the unit is chosen before rounding. *)
Theorem formatSize_KB_rounds_to_1024 (bytes : Z) :
  (1048525 <= bytes < 1048576)%Z ->
  formatSize bytes = "1024.0 KB".
Proof.
  intros Hb. unfold formatSize.
  destruct (Z.ltb_spec bytes 1024); [lia|].
  destruct (Z.ltb_spec bytes (1024 * 1024)); [|lia].
  unfold toFixed1.
  assert (roundTenths bytes 1024 = 10240%Z) as ->; [|reflexivity].
  unfold roundTenths. symmetry.
  apply (Z.div_unique _ _ _ (2 * 10 * bytes + 1024 - 2 * 1024 * 10240)).
  - left. lia.
  - lia.
Qed.

(** ** The file icon *)

Section Icons.

Implicit Types (s t : string) (c sep : ascii).

(** Splitting around a separator: the segments before it, then the
    segments after it. *)
Lemma split_app sep s t :
  split sep (s +:+ String sep t) = split sep s ++ split sep t.
Proof.
  induction s as [|c s IH].
  - change ("" +:+ String sep t) with (String sep t). simpl.
    by rewrite Ascii.eqb_refl.
  - rewrite append_cons. simpl. rewrite IH.
    destruct (Ascii.eqb c sep); [done|].
    destruct (split sep s) as [|seg segs] eqn:Hs; [|done].
    by apply split_not_nil in Hs.
Qed.

Lemma last_split_app sep s t :
  last (split sep (s +:+ String sep t)) = last (split sep t).
Proof.
  rewrite split_app, last_app.
  destruct (last (split sep t)) eqn:Hl; [done|].
  apply last_None in Hl. by apply split_not_nil in Hl.
Qed.

Lemma lowerUnit_idemp c : lowerUnit (lowerUnit c) = lowerUnit c.
Proof. destruct c as [[] [] [] [] [] [] [] []]; reflexivity. Qed.

Lemma lowerUnit_dot c : Ascii.eqb (lowerUnit c) "." = Ascii.eqb c ".".
Proof. destruct c as [[] [] [] [] [] [] [] []]; reflexivity. Qed.

Lemma toLowerCase_idemp s : toLowerCase (toLowerCase s) = toLowerCase s.
Proof.
  induction s as [|c s IH]; [done|]. simpl.
  by rewrite lowerUnit_idemp, IH.
Qed.

(** Lower-casing does not move the dots. *)
Lemma split_toLowerCase s :
  split "." (toLowerCase s) = toLowerCase <$> split "." s.
Proof.
  induction s as [|c s IH]; [done|]. simpl.
  rewrite lowerUnit_dot, IH.
  destruct (Ascii.eqb c "."); [done|].
  by destruct (split "." s).
Qed.

Lemma extensionOf_toLowerCase s :
  extensionOf (toLowerCase s) = extensionOf s.
Proof.
  unfold extensionOf. rewrite split_toLowerCase, fmap_last.
  destruct (last (split "." s)) as [e|]; [|done]. simpl.
  by rewrite toLowerCase_idemp.
Qed.

End Icons.

(** X15. Only what follows the last dot decides the icon: a name and what
    follows any of its dots get the same icon.  So [x.tar.gz] gets the icon
    of [gz], and a file named [pdf] gets the icon of [a.pdf]. *)
Theorem getFileIcon_after_dot (base rest : string) :
  getFileIcon (base +:+ "." +:+ rest) = getFileIcon rest.
Proof.
  unfold getFileIcon, extensionOf.
  change ("." +:+ rest) with (String "." rest).
  by rewrite last_split_app.
Qed.

(** X16. The icon does not depend on the case of the letters: two names
    that are equal once lower-cased get the same icon. *)
Theorem getFileIcon_case_insensitive (a b : string) :
  toLowerCase a = toLowerCase b -> getFileIcon a = getFileIcon b.
Proof.
  intros Hab. unfold getFileIcon.
  by rewrite <- (extensionOf_toLowerCase a), Hab, extensionOf_toLowerCase.
Qed.

(** ** There and back *)

Lemma length_breadcrumbSegments (p : string) :
  length (breadcrumbSegments p) = length (pathSegments p).
Proof. unfold breadcrumbSegments. apply length_imap. Qed.

(** The last breadcrumb of a canonical path leads to the path itself. *)
Lemma last_crumb_canonical (p : string) :
  canonicalPath p -> p <> "" ->
  exists seg,
    breadcrumbSegments p !! (length (pathSegments p) - 1)%nat = Some (seg, p).
Proof.
  intros Hcan Hne. unfold breadcrumbSegments. rewrite list_lookup_imap.
  destruct (pathSegments p) as [|x segs] eqn:Hsegs.
  { unfold canonicalPath in Hcan. rewrite Hsegs in Hcan. done. }
  destruct ((x :: segs) !! (length (x :: segs) - 1)%nat) as [y|] eqn:Hy.
  - exists y. simpl. do 2 f_equal.
    rewrite pathUpTo_dirOf by (simpl; lia).
    rewrite take_ge by (simpl; lia).
    unfold canonicalPath in Hcan. by rewrite Hsegs in Hcan.
  - apply lookup_ge_None in Hy. simpl in Hy. lia.
Qed.

(** X18. There and back: in every session, below the root, opening a
    folder row and then clicking the breadcrumb that was the last one
    before restores the state. *)
Theorem open_folder_then_back
    (url : string) (outcome : Promise Response) (clicks : list Click)
    (idx : nat) (e : DisplayItem) :
  let w := session url outcome clicks in
  currentPath (view w) <> "" ->
  grouper (files (view w)) (currentPath (view w)) !! idx = Some e ->
  type e = folder ->
  handleClick
    (ClickCrumb (length (breadcrumbSegments (currentPath (view w))) - 1))
    (handleClick (ClickRow idx) w)
  = w.
Proof.
  intros w Hne He Ht.
  destruct (sessionInv_session url outcome clicks)
    as (_ & _ & Hl & Hcan & _). fold w in Hl, Hcan.
  assert (handleClick (ClickRow idx) w = setCurrentPath (fullPath e) w)
    as ->.
  { unfold handleClick, render. by rewrite Hl, He, Ht. }
  unfold handleClick, render. simpl. rewrite Hl.
  rewrite (breadcrumbSegments_folder (files (view w)) _ e Hcan)
    by (done || by eapply list_elem_of_lookup_2).
  rewrite length_breadcrumbSegments.
  destruct (last_crumb_canonical _ Hcan Hne) as [seg Hseg].
  rewrite lookup_app_l by (by eapply lookup_lt_Some).
  rewrite Hseg. by destruct w as [[? ? ?] ?].
Qed.

(** ** The fetch that succeeds *)

(** X17. When the request is answered with a JSON array, the mount effect
    stores the array, clears the loading flag, logs nothing and requests
    nothing more; the render that follows lists the root of the fetched
    records, with no breadcrumb. *)
Theorem fetch_success_root_listing
    (url : string) (res : Response) (data : list FileItem) :
  json res = Fulfilled data ->
  let w := mountEffect url (Fulfilled res)
             {| view := initialView; trace := [] |} in
  files (view w) = data /\
  loading (view w) = false /\
  trace w = [FetchCall url] /\
  render (view w) = Listing [] (grouper data "").
Proof.
  intros Hres w. unfold w, mountEffect, seqAction, settle. simpl.
  by rewrite Hres.
Qed.

(** ** The further statements at the sample data *)

Lemma grouper_direct_children_witness :
  sampleFolder ∈ grouper sampleRecords "" /\
  fullPath sampleFolder = "" +:+ name sampleFolder +:+ "/".
Proof.
  assert (sampleFolder ∈ grouper sampleRecords "") as Hin
    by decide_by_evaluation.
  split; [exact Hin|].
  exact (proj1 (proj2 (proj2
    (grouper_direct_children sampleRecords "" sampleFolder Hin)))).
Defined.

Lemma breadcrumb_click_truncates_witness :
  breadcrumbSegments "a/b/c/" !! 1%nat = Some ("b", "a/b/") /\
  breadcrumbSegments "a/b/" = take 2 (breadcrumbSegments "a/b/c/").
Proof.
  assert (breadcrumbSegments "a/b/c/" !! 1%nat = Some ("b", "a/b/")) as Hc
    by reflexivity.
  split; [exact Hc|].
  exact (breadcrumb_click_truncates "a/b/c/" 1 "b" "a/b/" Hc).
Defined.

Lemma breadcrumb_open_folder_witness :
  canonicalPath "" /\
  sampleFolder ∈ grouper sampleRecords "" /\
  type sampleFolder = folder /\
  breadcrumbSegments (fullPath sampleFolder)
  = breadcrumbSegments "" ++ [(name sampleFolder, fullPath sampleFolder)].
Proof.
  assert (canonicalPath "") as Hcan by reflexivity.
  assert (sampleFolder ∈ grouper sampleRecords "") as Hin
    by decide_by_evaluation.
  split; [exact Hcan|]. split; [exact Hin|]. split; [reflexivity|].
  exact (breadcrumb_open_folder sampleRecords "" sampleFolder
           Hcan Hin eq_refl).
Defined.

Lemma session_listing_not_empty_witness :
  let w := session "https://api.example/files" sampleGoodResponse
             [ClickRow 0] in
  Forall (fun f => doubleSlash (Key f) = false /\
                   trailingSlash (Key f) = false) (files (view w)) /\
  currentPath (view w) <> "" /\
  grouper (files (view w)) (currentPath (view w)) <> [].
Proof.
  intros w.
  assert (Forall (fun f => doubleSlash (Key f) = false /\
                           trailingSlash (Key f) = false) (files (view w)))
    as Hkeys by (vm_compute; repeat constructor).
  assert (currentPath (view w) <> "") as Hne by (vm_compute; discriminate).
  split; [exact Hkeys|]. split; [exact Hne|].
  exact (session_listing_not_empty "https://api.example/files"
           sampleGoodResponse [ClickRow 0] Hkeys Hne).
Defined.

Lemma formatSize_KB_witness :
  (1024 <= 2048 < 1024 * 1024)%Z /\
  exists n,
    formatSize 2048
      = (numberToString (n / 10) +:+ "." +:+ numberToString (n mod 10))
        +:+ " KB" /\
    String.length (numberToString (n mod 10)) = 1%nat /\
    (10 <= n <= 10240)%Z /\
    (2 * 1024 * n - 1024 <= 2 * 10 * 2048 < 2 * 1024 * n + 1024)%Z.
Proof.
  assert (1024 <= 2048 < 1024 * 1024)%Z as Hb by lia.
  split; [exact Hb|]. exact (formatSize_KB 2048 Hb).
Defined.

Lemma formatSize_MB_witness :
  (1024 * 1024 <= 5242880 < 2 ^ 53)%Z /\
  exists n,
    formatSize 5242880
      = (numberToString (n / 10) +:+ "." +:+ numberToString (n mod 10))
        +:+ " MB" /\
    String.length (numberToString (n mod 10)) = 1%nat /\
    (10 <= n)%Z /\
    (2 * 1048576 * n - 1048576 <= 2 * 10 * 5242880
     < 2 * 1048576 * n + 1048576)%Z.
Proof.
  assert (1024 * 1024 <= 5242880 < 2 ^ 53)%Z as Hb by lia.
  split; [exact Hb|]. exact (formatSize_MB 5242880 Hb).
Defined.

Lemma formatSize_KB_rounds_to_1024_witness :
  (1048525 <= 1048575 < 1048576)%Z /\ formatSize 1048575 = "1024.0 KB".
Proof.
  assert (1048525 <= 1048575 < 1048576)%Z as Hb by lia.
  split; [exact Hb|]. exact (formatSize_KB_rounds_to_1024 1048575 Hb).
Defined.

Lemma getFileIcon_case_insensitive_witness :
  toLowerCase "Photo.JPG" = toLowerCase "photo.jpg" /\
  getFileIcon "Photo.JPG" = getFileIcon "photo.jpg".
Proof.
  assert (toLowerCase "Photo.JPG" = toLowerCase "photo.jpg") as Hl
    by reflexivity.
  split; [exact Hl|].
  exact (getFileIcon_case_insensitive "Photo.JPG" "photo.jpg" Hl).
Defined.

Lemma fetch_success_root_listing_witness :
  json {| json := Fulfilled sampleRecords |} = Fulfilled sampleRecords /\
  render (view (mountEffect "https://api.example/files" sampleGoodResponse
                  {| view := initialView; trace := [] |}))
  = Listing [] (grouper sampleRecords "").
Proof.
  split; [reflexivity|].
  exact (proj2 (proj2 (proj2
    (fetch_success_root_listing "https://api.example/files"
       {| json := Fulfilled sampleRecords |} sampleRecords eq_refl)))).
Defined.

Lemma open_folder_then_back_witness :
  let w := session "https://api.example/files"
             (Fulfilled {| json := Fulfilled sampleDeepRecords |})
             [ClickRow 0] in
  currentPath (view w) = "docs/" /\
  handleClick (ClickCrumb 0) (handleClick (ClickRow 0) w) = w.
Proof.
  intros w. split; [reflexivity|].
  assert (currentPath (view w) <> "") as Hne by (vm_compute; discriminate).
  exact (open_folder_then_back "https://api.example/files"
           (Fulfilled {| json := Fulfilled sampleDeepRecords |})
           [ClickRow 0] 0
           {| type := folder; name := "2024"; fullPath := "docs/2024/";
              item := None |}
           Hne eq_refl eq_refl).
Defined.
